(** * filewatcher: a polling directory watcher (src/main.go)

    The watcher keeps a map from path to the descriptor it last saw
    ([fileStates]), re-walks its directories once per tick and prints one
    line per detected change.  This file embeds [getFileInfo], [initialize],
    [checkChanges], [Start] and [main] as Rocq functions and proves the
    properties of the snapshot-and-diff engine.

    The operating system is an input of the model.  [filepath.Walk] and
    [os.Stat] are library calls whose answers depend on the file system at the
    time of the call; one call [filepath.Walk(dir, fn)] is represented by the
    list of the invocations of [fn] it would make if [fn] always returned nil
    (a [Visit] per invocation), each carrying the error argument handed to the
    callback and the answer [os.Stat] gives for the path at that moment. *)

From Stdlib Require Import ZArith String List Lia.
From stdpp Require Import base gmap sets list strings.

Local Open Scope Z_scope.

(** ** Data *)

(** [error]: an error value, identified with its message. *)
Definition error := string.

(** [time.Time]: the three fields Go's struct comparison [!=] looks at
    ([loc] stands for the identity of the [*Location] pointer). *)
Record Time := mkTime { wall : Z; ext : Z; loc : Z }.

(** [type FileInfo struct] *)
Record FileInfo := mkFileInfo {
  Size : Z;        (* int64 *)
  ModTime : Time;  (* time.Time *)
  Mode : Z;        (* os.FileMode, a uint32 *)
  IsDir : bool
}.

#[global] Instance Time_eq_dec : EqDecision Time.
Proof. solve_decision. Defined.

#[global] Instance FileInfo_eq_dec : EqDecision FileInfo.
Proof. solve_decision. Defined.

(** The zero value [FileInfo{}]. *)
Definition zeroFileInfo : FileInfo := mkFileInfo 0 (mkTime 0 0 0) 0 false.

(** One invocation of a walk callback [fn(path, info, err)].  The [info]
    argument is never read by the callbacks of this program and is left out.
    [v_stat] is what [os.Stat(path)] answers during this invocation: an error,
    or the size, modification time, mode and directory flag of the entry. *)
Record Visit := mkVisit {
  v_path : string;
  v_err : option error;
  v_stat : error + FileInfo
}.

#[global] Instance Visit_eq_dec : EqDecision Visit.
Proof. unfold error. solve_decision. Defined.

(** What one pass sees: the [i]-th call [filepath.Walk(dir, fn)] of the loop
    over [fw.directories] makes the invocations [w i dir]. *)
Definition Walker := nat → string → list Visit.

(** [type FileWatcher struct]; the [mutex] field has no content in a
    sequential model and is not represented (every [Lock]/[Unlock] pair of the
    source brackets exactly one map operation of the model, or the whole
    deletion sweep). *)
Record FileWatcher := mkFileWatcher {
  directories : list string;
  fileStates : gmap string FileInfo;
  interval : Z  (* time.Duration, nanoseconds *)
}.

(** The lines the watcher prints, one constructor per [fmt.Printf] of
    [checkChanges]. *)
Inductive Event :=
  | Created (path : string)
  | SizeChanged (path : string)
  | TimeChanged (path : string)
  | AttributesChanged (path : string)
  | Deleted (path : string).

#[global] Instance Event_eq_dec : EqDecision Event.
Proof. solve_decision. Defined.

Definition newline : string := String (Ascii.ascii_of_nat 10) EmptyString.

(** The text each [fmt.Printf] writes. *)
Definition message (e : Event) : string :=
  match e with
  | Created path => "File created: " +:+ path +:+ newline
  | SizeChanged path => "File content modified (size changed): " +:+ path +:+ newline
  | TimeChanged path => "File modified (time changed): " +:+ path +:+ newline
  | AttributesChanged path => "File attributes modified: " +:+ path +:+ newline
  | Deleted path => "File deleted: " +:+ path +:+ newline
  end.

Definition event_path (e : Event) : string :=
  match e with
  | Created p | SizeChanged p | TimeChanged p | AttributesChanged p | Deleted p => p
  end.

(** ** Operations *)

(** [func NewFileWatcher(dirs []string) *FileWatcher] *)
Definition NewFileWatcher (dirs : list string) : FileWatcher :=
  mkFileWatcher dirs ∅ 1000000000.

(** [func getFileInfo(path string) (FileInfo, error)], given the answer of
    [os.Stat(path)]. *)
Definition getFileInfo (stat : error + FileInfo) : FileInfo * option error :=
  match stat with
  | inl err => (zeroFileInfo, Some err)
  | inr st => (mkFileInfo (Size st) (ModTime st) (Mode st) (IsDir st), None)
  end.

(** [filepath.Walk]: calls [fn] on each entry in turn; the first non-nil
    result of [fn] ends the walk and is returned.  (The errors this program's
    callbacks return come from [Walk] itself or from [os.Stat]; none of them
    is [filepath.SkipDir].) *)
Fixpoint Walk {S : Type} (vs : list Visit) (fn : Visit → S → S * option error)
    (s : S) : S * option error :=
  match vs with
  | [] => (s, None)
  | v :: rest =>
      match fn v s with
      | (s', Some err) => (s', Some err)
      | (s', None) => Walk rest fn s'
      end
  end.

(** State threaded through a pass: the local [currentFiles], the map
    [fw.fileStates] and the lines printed so far. *)
Record Pass := mkPass {
  currentFiles : gset string;
  states : gmap string FileInfo;
  printed : list Event
}.

(** The callback of [initialize]. *)
Definition initVisit (v : Visit) (s : Pass) : Pass * option error :=
  match v_err v with
  | Some err => (s, Some err)
  | None =>
      match getFileInfo (v_stat v) with
      | (_, Some err) => (s, Some err)
      | (fileInfo, None) =>
          (mkPass (currentFiles s) (<[v_path v := fileInfo]> (states s)) (printed s),
           None)
      end
  end.

(** The loop [for _, dir := range fw.directories] of [initialize]. *)
Fixpoint initDirs (w : Walker) (i : nat) (dirs : list string) (s : Pass)
    : Pass * option error :=
  match dirs with
  | [] => (s, None)
  | dir :: rest =>
      match Walk (w i dir) initVisit s with
      | (s', Some err) => (s', Some err)
      | (s', None) => initDirs w (S i) rest s'
      end
  end.

(** [func (fw *FileWatcher) initialize() error]: the watcher afterwards, the
    lines printed meanwhile, and the returned error. *)
Definition initialize (w : Walker) (fw : FileWatcher)
    : FileWatcher * list Event * option error :=
  let '(s, err) := initDirs w 0 (directories fw) (mkPass ∅ (fileStates fw) []) in
  (mkFileWatcher (directories fw) (states s) (interval fw), printed s, err).

(** The three comparisons made for a path already in the map. *)
Definition modifications (path : string) (oldInfo newInfo : FileInfo) : list Event :=
  (if decide (Size oldInfo ≠ Size newInfo) then [SizeChanged path] else []) ++
  (if decide (ModTime oldInfo ≠ ModTime newInfo) then [TimeChanged path] else []) ++
  (if decide (Mode oldInfo ≠ Mode newInfo) then [AttributesChanged path] else []).

(** The callback of [checkChanges]. *)
Definition checkVisit (v : Visit) (s : Pass) : Pass * option error :=
  match v_err v with
  | Some _ => (s, None)
  | None =>
      let cur := {[v_path v]} ∪ currentFiles s in
      match getFileInfo (v_stat v) with
      | (_, Some _) => (mkPass cur (states s) (printed s), None)
      | (newInfo, None) =>
          let out :=
            match states s !! v_path v with
            | None => printed s ++ [Created (v_path v)]
            | Some oldInfo => printed s ++ modifications (v_path v) oldInfo newInfo
            end in
          (mkPass cur (<[v_path v := newInfo]> (states s)) out, None)
      end
  end.

(** The loop over [fw.directories] of [checkChanges]; the result of each
    [filepath.Walk] is dropped. *)
Fixpoint checkDirs (w : Walker) (i : nat) (dirs : list string) (s : Pass) : Pass :=
  match dirs with
  | [] => s
  | dir :: rest => checkDirs w (S i) rest (fst (Walk (w i dir) checkVisit s))
  end.

(** One iteration of [for path := range fw.fileStates]. *)
Definition sweepKey (cur : gset string) (s : gmap string FileInfo * list Event)
    (path : string) : gmap string FileInfo * list Event :=
  if decide (path ∈ cur) then s
  else (delete path (fst s), snd s ++ [Deleted path]).

(** The deletion sweep over the keys in the order [keys]. *)
Definition sweep (cur : gset string) (keys : list string)
    (s : gmap string FileInfo * list Event) : gmap string FileInfo * list Event :=
  foldl (sweepKey cur) s keys.

(** The keys of a map in the order the sweep ranges over them.  Go leaves the
    iteration order of a map unspecified; the model fixes one enumeration, and
    [sweep_Permutation] below shows that another order yields the same map and
    the same lines up to their order. *)
Definition rangeKeys (m : gmap string FileInfo) : list string := elements (dom m).

(** [func (fw *FileWatcher) checkChanges()]: the watcher afterwards and the
    lines printed by this pass. *)
Definition checkChanges (w : Walker) (fw : FileWatcher) : FileWatcher * list Event :=
  let s := checkDirs w 0 (directories fw) (mkPass ∅ (fileStates fw) []) in
  let '(m, out) := sweep (currentFiles s) (rangeKeys (states s)) (states s, printed s) in
  (mkFileWatcher (directories fw) m (interval fw), out).

(** The local [currentFiles] at the moment the deletion sweep starts: the
    observed set of the pass. *)
Definition observed (w : Walker) (fw : FileWatcher) : gset string :=
  currentFiles (checkDirs w 0 (directories fw) (mkPass ∅ (fileStates fw) [])).

(** The ticker loop [for range ticker.C { fw.checkChanges() }] over the ticks
    that have fired so far, one [Walker] per tick. *)
Fixpoint tickLoop (ticks : list Walker) (fw : FileWatcher) (out : list Event)
    : FileWatcher * list Event :=
  match ticks with
  | [] => (fw, out)
  | w :: rest =>
      let '(fw', evs) := checkChanges w fw in
      tickLoop rest fw' (out ++ evs)
  end.

(** What is known of a call of [Start] once the ticks [ticks] have fired:
    either it has returned an error, or it is still in its loop (the channel of
    a ticker is never closed, so the [return nil] after the loop is never
    reached). *)
Inductive StartResult :=
  | Returned (err : error) (fw : FileWatcher) (out : list Event)
  | Ticking (fw : FileWatcher) (out : list Event).

(** [func (fw *FileWatcher) Start() error] *)
Definition Start (init : Walker) (ticks : list Walker) (fw : FileWatcher) : StartResult :=
  match initialize init fw with
  | (fw', out, Some err) => Returned err fw' out
  | (fw', out, None) =>
      let '(fw'', out') := tickLoop ticks fw' out in
      Ticking fw'' out'
  end.

(** The process as seen from outside: ended by [log.Fatal] with a logged
    message, or still running. *)
Inductive Outcome :=
  | Fatal (logged : string) (stdout : list string)
  | Running (fw : FileWatcher) (stdout : list string).

(** [fmt.Printf("%v", dirs)] for a slice of strings. *)
Fixpoint joinSpace (l : list string) : string :=
  match l with
  | [] => ""
  | [x] => x
  | x :: rest => x +:+ " " +:+ joinSpace rest
  end.

Definition startLine (dirs : list string) : string :=
  "Starting file watcher for directories: [" +:+ joinSpace dirs +:+ "]" +:+ newline.

(** [func main()], given [os.Args]. *)
Definition main (args : list string) (init : Walker) (ticks : list Walker) : Outcome :=
  if (length args <? 2)%nat then
    Fatal "Please provide atleast one directory to watch" []
  else
    let watcher := NewFileWatcher (tail args) in
    let banner := startLine (directories watcher) in
    match Start init ticks watcher with
    | Returned err _ out => Fatal err (banner :: map message out)
    | Ticking fw out => Running fw (banner :: map message out)
    end.

(** ** Vocabulary for stating properties of a pass *)

(** All callback invocations of one pass, in order. *)
Fixpoint passVisits (w : Walker) (i : nat) (dirs : list string) : list Visit :=
  match dirs with
  | [] => []
  | dir :: rest => w i dir ++ passVisits w (S i) rest
  end.

(** The descriptor a visit yields: [Walk] reported no error and [os.Stat]
    succeeded. *)
Definition statOf (v : Visit) : option FileInfo :=
  match v_err v, v_stat v with
  | None, inr st => Some st
  | _, _ => None
  end.

(** The walk output of a pass: the (path, descriptor) pairs of the visits
    that were stat'ed successfully. *)
Definition walkOutput (vs : list Visit) : list (string * FileInfo) :=
  omap (λ v, pair (v_path v) <$> statOf v) vs.

(** The paths successfully observed during a pass. *)
Definition okPaths (vs : list Visit) : gset string :=
  list_to_set (walkOutput vs).*1.

(** The descriptors seen for [p], in order. *)
Definition seenFor (p : string) (vs : list Visit) : list FileInfo :=
  omap (λ v, if decide (v_path v = p) then statOf v else None) vs.

(** The paths that [Walk] handed to the callback without an error. *)
Definition listed (vs : list Visit) : gset string :=
  list_to_set (v_path <$> filter (λ v, v_err v = None) vs).

(** The lines of [l] that are about [p]. *)
Definition eventsFor (p : string) (l : list Event) : list Event :=
  filter (λ e, event_path e = p) l.

(** The lines printed about one path during the walks, from the record the
    map holds for it and the descriptors seen for it. *)
Fixpoint pathEvents (p : string) (old : option FileInfo) (seen : list FileInfo)
    : list Event :=
  match seen with
  | [] => []
  | newInfo :: rest =>
      match old with
      | None => [Created p]
      | Some oldInfo => modifications p oldInfo newInfo
      end ++ pathEvents p (Some newInfo) rest
  end.

(** Two descriptors that the comparisons of [checkChanges] cannot tell apart. *)
Definition sameMeta (a b : FileInfo) : Prop :=
  Size a = Size b ∧ ModTime a = ModTime b ∧ Mode a = Mode b.

(** A descriptor, a visit, a pass and a watcher with every directory flag
    cleared: every entry presented as a regular file. *)
Definition forgetDir (st : FileInfo) : FileInfo :=
  mkFileInfo (Size st) (ModTime st) (Mode st) false.

Definition forgetDirVisit (v : Visit) : Visit :=
  mkVisit (v_path v) (v_err v)
    (match v_stat v with inl err => inl err | inr st => inr (forgetDir st) end).

Definition forgetDirWalker (w : Walker) : Walker :=
  λ i dir, forgetDirVisit <$> w i dir.

Definition forgetDirWatcher (fw : FileWatcher) : FileWatcher :=
  mkFileWatcher (directories fw) (forgetDir <$> fileStates fw) (interval fw).

Definition forgetDirPass (s : Pass) : Pass :=
  mkPass (currentFiles s) (forgetDir <$> states s) (printed s).

(** The error with which a visit makes the callback of [initialize] fail. *)
Definition visitError (v : Visit) : option error :=
  match v_err v with
  | Some err => Some err
  | None => match v_stat v with inl err => Some err | inr _ => None end
  end.

(** The error of the first visit that fails, and the visits before it. *)
Fixpoint firstError (vs : list Visit) : option error :=
  match vs with
  | [] => None
  | v :: rest =>
      match visitError v with Some err => Some err | None => firstError rest end
  end.

Fixpoint okPrefix (vs : list Visit) : list Visit :=
  match vs with
  | [] => []
  | v :: rest =>
      match visitError v with Some _ => [] | None => v :: okPrefix rest end
  end.

(** The map after the silent insertion of the given visits. *)
Definition insertAll (m : gmap string FileInfo) (vs : list Visit)
    : gmap string FileInfo :=
  foldl (λ m' v, match statOf v with Some st => <[v_path v := st]> m' | None => m' end)
    m vs.

(** The state transformer of one callback invocation of [checkChanges]. *)
Definition stepVisit (s : Pass) (v : Visit) : Pass := fst (checkVisit v s).

(** The text on standard output after the given lines: what the successive
    [fmt.Printf] calls have written, end to end. *)
Definition stdoutText (l : list Event) : string :=
  foldr (λ e rest, message e +:+ rest) "" l.

(** The number of lines [e] in [l]. *)
Definition countEvent (e : Event) (l : list Event) : nat :=
  count_occ Event_eq_dec l e.

(** ** Data for the concrete scenarios *)

Module Scenario.
Definition t1 : Time := mkTime 1000 0 1.

(** A directory [D] (mode [ModeDir | 0755]) and the file [D/a.txt]
    (mode [0644]) with ten bytes, and after a truncation. *)
Definition dirD : FileInfo := mkFileInfo 4096 t1 2147484141 true.
Definition fileA : FileInfo := mkFileInfo 10 t1 420 false.
Definition fileA_truncated : FileInfo := mkFileInfo 0 t1 420 false.

Definition pathD : string := "D".
Definition pathA : string := "D/a.txt".

(** A walker whose first [Walk] makes the given invocations. *)
Definition walkOf (vs : list Visit) : Walker :=
  λ i _, match i with O => vs | S _ => [] end.

Definition ok (p : string) (st : FileInfo) : Visit := mkVisit p None (inr st).
Definition statFails (p : string) : Visit :=
  mkVisit p None (inl "stat: no such file or directory"%string).
Definition walkFails (p : string) : Visit :=
  mkVisit p (Some "lstat: no such file or directory"%string)
    (inl "stat: no such file or directory"%string).

(** The watcher of [D] after it has seen the given entries. *)
Definition watching (entries : list (string * FileInfo)) : FileWatcher :=
  mkFileWatcher [pathD] (list_to_map entries) 1000000000.

(** The watcher when [D] was empty, and when it held [a.txt]. *)
Definition knowsD : FileWatcher := watching [(pathD, dirD)].
Definition knowsA : FileWatcher := watching [(pathD, dirD); (pathA, fileA)].

(** Passes that find [D] empty, with [a.txt], with [a.txt] truncated, and
    with [a.txt] listed but not stat'able. *)
Definition findsD : Walker := walkOf [ok pathD dirD].
Definition findsA : Walker := walkOf [ok pathD dirD; ok pathA fileA].
Definition findsA_truncated : Walker :=
  walkOf [ok pathD dirD; ok pathA fileA_truncated].
Definition cannotStatA : Walker := walkOf [ok pathD dirD; statFails pathA].

(** A pass in which [Walk] itself reports [a.txt] with an error. *)
Definition cannotListA : Walker := walkOf [ok pathD dirD; walkFails pathA].

(** [a.txt] replaced by an entry with the same size, time and mode whose
    directory flag is set. *)
Definition fileA_asDir : FileInfo := mkFileInfo 10 t1 420 true.
Definition findsA_asDir : Walker := walkOf [ok pathD dirD; ok pathA fileA_asDir].

(** A pass that can stat neither [a.txt] nor the new entry [D/link]. *)
Definition pathLink : string := "D/link".
Definition cannotStatTwo : Walker :=
  walkOf [ok pathD dirD; statFails pathA; statFails pathLink].

(** A second file [D/b.txt], and the watcher that knows both files. *)
Definition pathB : string := "D/b.txt".
Definition fileB : FileInfo := mkFileInfo 25 t1 420 false.
Definition knowsAB : FileWatcher :=
  watching [(pathD, dirD); (pathA, fileA); (pathB, fileB)].

(** [a.txt] rewritten: another size, a later time and mode [0600]. *)
Definition t2 : Time := mkTime 2000 0 1.
Definition fileA_rewritten : FileInfo := mkFileInfo 12 t2 384 false.
Definition findsA_rewritten : Walker :=
  walkOf [ok pathD dirD; ok pathA fileA_rewritten].

(** A pass in which the root [D] itself cannot be read. *)
Definition rootUnreadable : Walker := walkOf [walkFails pathD].

(** [D] given twice on the command line: both walks make the same
    invocations. *)
Definition walkTwice (vs : list Visit) : Walker :=
  λ i _, match i with O | 1%nat => vs | _ => [] end.
Definition findsA_twice : Walker := walkTwice [ok pathD dirD; ok pathA fileA].

(** An initial walk that cannot stat [a.txt] and would go on to [b.txt]. *)
Definition cannotStatA_thenB : Walker :=
  walkOf [ok pathD dirD; statFails pathA; ok pathB fileB].
End Scenario.

(** ** Tactics *)

(** Closed decidable facts about the scenarios are settled by evaluation. *)
Ltac by_evaluation := apply (bool_decide_unpack _); vm_compute; exact I.

(** Membership in a literal list, one case per element. *)
Ltac elem_of_cases H :=
  repeat match type of H with
         | _ = _ => fail 1
         | _ => first [apply elem_of_nil in H; destruct H
                      |apply elem_of_cons in H as [H|H]]
         end.

(** ** The walks of a pass as one fold *)

Lemma getFileInfo_inr (st : FileInfo) : getFileInfo (inr st) = (st, None).
Proof. by destruct st. Qed.

Lemma stepVisit_walk_error (s : Pass) (v : Visit) (err : error) :
  v_err v = Some err → stepVisit s v = s.
Proof. intros H. unfold stepVisit, checkVisit. by rewrite H. Qed.

Lemma stepVisit_stat_error (s : Pass) (v : Visit) (err : error) :
  v_err v = None → v_stat v = inl err →
  stepVisit s v = mkPass ({[v_path v]} ∪ currentFiles s) (states s) (printed s).
Proof. intros H1 H2. unfold stepVisit, checkVisit. by rewrite H1, H2. Qed.

Lemma stepVisit_ok (s : Pass) (v : Visit) (st : FileInfo) :
  statOf v = Some st →
  stepVisit s v =
    mkPass ({[v_path v]} ∪ currentFiles s) (<[v_path v := st]> (states s))
      (printed s ++ pathEvents (v_path v) (states s !! v_path v) [st]).
Proof.
  unfold statOf, stepVisit, checkVisit. intros H.
  destruct (v_err v); [done|]. destruct (v_stat v) as [e|st']; [done|].
  injection H as ->. rewrite getFileInfo_inr. simpl.
  destruct (states s !! v_path v); simpl; by rewrite ?app_nil_r.
Qed.

(** The three shapes of a visit. *)
Lemma visit_cases (v : Visit) :
  (∃ err, v_err v = Some err ∧ statOf v = None) ∨
  (∃ err, v_err v = None ∧ v_stat v = inl err ∧ statOf v = None) ∨
  (∃ st, v_err v = None ∧ v_stat v = inr st ∧ statOf v = Some st).
Proof.
  unfold statOf. destruct (v_err v) as [e|]; [left; eauto|].
  destruct (v_stat v) as [e|st]; [right; left; eauto|right; right; eauto].
Qed.

Lemma checkVisit_nil (v : Visit) (s : Pass) : snd (checkVisit v s) = None.
Proof.
  unfold checkVisit. destruct (v_err v); [done|].
  by destruct (getFileInfo (v_stat v)) as [? []].
Qed.

Lemma Walk_checkVisit (vs : list Visit) (s : Pass) :
  Walk vs checkVisit s = (foldl stepVisit s vs, None).
Proof.
  revert s. induction vs as [|v vs IH]; intros s; [done|].
  simpl. pose proof (checkVisit_nil v s) as Hnil. unfold stepVisit.
  destruct (checkVisit v s) as [s' e]. simpl in Hnil. subst e. apply IH.
Qed.

Lemma checkDirs_foldl (w : Walker) (i : nat) (dirs : list string) (s : Pass) :
  checkDirs w i dirs s = foldl stepVisit s (passVisits w i dirs).
Proof.
  revert i s. induction dirs as [|dir rest IH]; intros i s; [done|].
  simpl. rewrite Walk_checkVisit, foldl_app. apply IH.
Qed.

Lemma listed_cons (v : Visit) (vs : list Visit) :
  listed (v :: vs) =
    (if decide (v_err v = None) then {[v_path v]} else ∅) ∪ listed vs.
Proof.
  unfold listed. rewrite filter_cons.
  destruct (decide (v_err v = None)); simpl; set_solver.
Qed.

Lemma elem_of_listed (p : string) (vs : list Visit) :
  p ∈ listed vs ↔ ∃ v, v ∈ vs ∧ v_path v = p ∧ v_err v = None.
Proof.
  unfold listed. rewrite elem_of_list_to_set, list_elem_of_fmap.
  split.
  - intros (v & -> & Hv). apply list_elem_of_filter in Hv as [? ?]. eauto.
  - intros (v & Hv & <- & He). exists v. split; [done|].
    apply list_elem_of_filter. done.
Qed.

Lemma currentFiles_foldl (vs : list Visit) (s : Pass) :
  currentFiles (foldl stepVisit s vs) = currentFiles s ∪ listed vs.
Proof.
  revert s. induction vs as [|v vs IH]; intros s.
  - unfold listed. simpl. set_solver.
  - simpl. rewrite IH, listed_cons.
    destruct (visit_cases v) as [(e & He & _)|[(e & He & Hs & _)|(st & He & _ & Hst)]].
    + rewrite (stepVisit_walk_error _ _ _ He), He.
      destruct (decide _); [done|]. set_solver.
    + rewrite (stepVisit_stat_error _ _ _ He Hs). simpl.
      destruct (decide _); [|done]. set_solver.
    + rewrite (stepVisit_ok _ _ _ Hst). simpl.
      destruct (decide _); [|done]. set_solver.
Qed.

Lemma seenFor_cons (p : string) (v : Visit) (vs : list Visit) :
  seenFor p (v :: vs) =
    match (if decide (v_path v = p) then statOf v else None) with
    | Some st => st :: seenFor p vs
    | None => seenFor p vs
    end.
Proof. done. Qed.

Lemma seenFor_app (p : string) (vs1 vs2 : list Visit) :
  seenFor p (vs1 ++ vs2) = seenFor p vs1 ++ seenFor p vs2.
Proof. apply omap_app. Qed.

Lemma elem_of_seenFor (p : string) (st : FileInfo) (vs : list Visit) :
  st ∈ seenFor p vs ↔ ∃ v, v ∈ vs ∧ v_path v = p ∧ statOf v = Some st.
Proof.
  unfold seenFor. rewrite list_elem_of_omap. split.
  - intros (v & Hv & H). destruct (decide (v_path v = p)); [eauto|done].
  - intros (v & Hv & Hp & H). exists v. split; [done|].
    by rewrite decide_True.
Qed.

Lemma statOf_listed (v : Visit) (st : FileInfo) :
  statOf v = Some st → v_err v = None.
Proof. unfold statOf. by destruct (v_err v). Qed.

Lemma seenFor_not_listed (p : string) (vs : list Visit) :
  p ∉ listed vs → seenFor p vs = [].
Proof.
  intros Hp. destruct (seenFor p vs) as [|st l] eqn:E; [done|].
  exfalso. apply Hp. assert (st ∈ seenFor p vs) as Hin by (rewrite E; left).
  apply elem_of_seenFor in Hin as (v & Hv & Hpath & Hst).
  apply elem_of_listed. eauto using statOf_listed.
Qed.

Lemma states_foldl (p : string) (vs : list Visit) (s : Pass) :
  states (foldl stepVisit s vs) !! p =
    from_option Some (states s !! p) (last (seenFor p vs)).
Proof.
  revert s. induction vs as [|v vs IH]; intros s; [done|].
  rewrite seenFor_cons. cbn [foldl]. rewrite IH.
  destruct (visit_cases v) as [(e & He & Hst)|[(e & He & Hs & Hst)|(st & He & _ & Hst)]].
  - rewrite (stepVisit_walk_error _ _ _ He), Hst. by destruct (decide _).
  - rewrite (stepVisit_stat_error _ _ _ He Hs), Hst. by destruct (decide _).
  - rewrite (stepVisit_ok _ _ _ Hst), Hst. simpl.
    destruct (decide (v_path v = p)) as [->|Hne].
    + rewrite lookup_insert_eq. rewrite last_cons.
      by destruct (last (seenFor p vs)).
    + by rewrite lookup_insert_ne.
Qed.

(** ** The lines printed during the walks, path by path *)

Lemma eventsFor_app (p : string) (l1 l2 : list Event) :
  eventsFor p (l1 ++ l2) = eventsFor p l1 ++ eventsFor p l2.
Proof. apply filter_app. Qed.

Lemma modifications_path (q : string) (a b : FileInfo) (e : Event) :
  e ∈ modifications q a b → event_path e = q.
Proof.
  unfold modifications. intros H.
  repeat (apply elem_of_app in H as [H|H]);
    destruct (decide _); set_unfold; naive_solver.
Qed.

Lemma pathEvents_path (q : string) (old : option FileInfo) (seen : list FileInfo)
    (e : Event) :
  e ∈ pathEvents q old seen → event_path e = q.
Proof.
  revert old. induction seen as [|st seen IH]; intros old; simpl.
  - by intros ?%elem_of_nil.
  - intros [H|H]%elem_of_app; [|by eapply IH].
    destruct old; [by eapply modifications_path|].
    apply list_elem_of_singleton in H. by subst.
Qed.

Lemma eventsFor_all (p : string) (l : list Event) :
  (∀ e, e ∈ l → event_path e = p) → eventsFor p l = l.
Proof.
  induction l as [|e l IH]; intros H; [done|].
  unfold eventsFor. rewrite filter_cons, decide_True by (apply H; left).
  f_equal. apply IH. intros e' He'. apply H. by right.
Qed.

Lemma eventsFor_none (p : string) (l : list Event) :
  (∀ e, e ∈ l → event_path e ≠ p) → eventsFor p l = [].
Proof.
  induction l as [|e l IH]; intros H; [done|].
  unfold eventsFor. rewrite filter_cons, decide_False by (apply H; left).
  apply IH. intros e' He'. apply H. by right.
Qed.

Lemma eventsFor_pathEvents (p q : string) (old : option FileInfo)
    (seen : list FileInfo) :
  eventsFor p (pathEvents q old seen) =
    if decide (q = p) then pathEvents q old seen else [].
Proof.
  destruct (decide (q = p)) as [->|Hne].
  - apply eventsFor_all. intros e. apply pathEvents_path.
  - apply eventsFor_none. intros e He. by rewrite (pathEvents_path _ _ _ _ He).
Qed.

(** The lines about [p] that the walks print are those of [pathEvents],
    started from the record the map holds for [p]. *)
Lemma eventsFor_foldl (p : string) (vs : list Visit) (s : Pass) :
  eventsFor p (printed (foldl stepVisit s vs)) =
    eventsFor p (printed s) ++ pathEvents p (states s !! p) (seenFor p vs).
Proof.
  revert s. induction vs as [|v vs IH]; intros s.
  - simpl. by rewrite app_nil_r.
  - rewrite seenFor_cons. cbn [foldl]. rewrite IH.
    destruct (visit_cases v) as [(e & He & Hst)|[(e & He & Hs & Hst)|(st & He & _ & Hst)]].
    + rewrite (stepVisit_walk_error _ _ _ He), Hst. by destruct (decide _).
    + rewrite (stepVisit_stat_error _ _ _ He Hs), Hst. by destruct (decide _).
    + rewrite (stepVisit_ok _ _ _ Hst), Hst. cbn [printed states].
      rewrite eventsFor_app, eventsFor_pathEvents, <- app_assoc. f_equal.
      destruct (decide (v_path v = p)) as [->|Hne].
      * rewrite lookup_insert_eq. simpl. by rewrite app_nil_r.
      * by rewrite lookup_insert_ne.
Qed.

(** ** The deletion sweep *)

Lemma sweep_closed_form (cur : gset string) (keys : list string)
    (m : gmap string FileInfo) (out : list Event) :
  sweep cur keys (m, out) =
    (foldl (λ m' k, delete k m') m (filter (λ k, k ∉ cur) keys),
     out ++ (Deleted <$> filter (λ k, k ∉ cur) keys)).
Proof.
  unfold sweep. revert m out. induction keys as [|k keys IH]; intros m out.
  - simpl. by rewrite app_nil_r.
  - cbn [foldl]. rewrite filter_cons. unfold sweepKey at 2.
    destruct (decide (k ∈ cur)) as [Hin|Hout].
    + rewrite decide_False by tauto. apply IH.
    + rewrite decide_True by done. simpl fst. simpl snd. rewrite IH.
      simpl. by rewrite <- app_assoc.
Qed.

Lemma lookup_foldl_delete (p : string) (ks : list string) (m : gmap string FileInfo) :
  foldl (λ m' k, delete k m') m ks !! p = if decide (p ∈ ks) then None else m !! p.
Proof.
  revert m. induction ks as [|k ks IH]; intros m; [done|].
  simpl. rewrite IH.
  destruct (decide (p ∈ ks)) as [Hin|Hout].
  - rewrite decide_True; [done|by right].
  - destruct (decide (p = k)) as [->|Hne].
    + rewrite lookup_delete_eq, decide_True; [done|by left].
    + rewrite lookup_delete_ne by done. rewrite decide_False; [done|].
      intros [?|?]%elem_of_cons; done.
Qed.

Lemma sweep_lookup (cur : gset string) (keys : list string)
    (m : gmap string FileInfo) (out : list Event) (p : string) :
  (sweep cur keys (m, out)).1 !! p =
    if decide (p ∈ keys ∧ p ∉ cur) then None else m !! p.
Proof.
  rewrite sweep_closed_form. simpl. rewrite lookup_foldl_delete.
  destruct (decide (p ∈ filter _ keys)) as [Hin|Hout].
  - apply list_elem_of_filter in Hin. by rewrite decide_True by tauto.
  - rewrite decide_False; [done|]. intros [? ?]. apply Hout.
    by apply list_elem_of_filter.
Qed.

Lemma eventsFor_Deleted_NoDup (p : string) (ks : list string) :
  NoDup ks →
  eventsFor p (Deleted <$> ks) = if decide (p ∈ ks) then [Deleted p] else [].
Proof.
  induction 1 as [|k ks Hk Hnd IH]; [done|].
  rewrite fmap_cons. unfold eventsFor in *. rewrite filter_cons. simpl.
  rewrite IH. destruct (decide (k = p)) as [->|Hne].
  - rewrite decide_False by done. rewrite decide_True; [done|by left].
  - destruct (decide (p ∈ ks)).
    + rewrite decide_True; [done|by right].
    + rewrite decide_False; [done|]. intros [?|?]%elem_of_cons; done.
Qed.

Lemma sweep_events (cur : gset string) (keys : list string)
    (m : gmap string FileInfo) (out : list Event) (p : string) :
  NoDup keys →
  eventsFor p (sweep cur keys (m, out)).2 =
    eventsFor p out ++ if decide (p ∈ keys ∧ p ∉ cur) then [Deleted p] else [].
Proof.
  intros Hnd. rewrite sweep_closed_form. simpl. rewrite eventsFor_app. f_equal.
  rewrite eventsFor_Deleted_NoDup by (by apply NoDup_filter).
  destruct (decide (p ∈ filter _ keys)) as [Hin|Hout].
  - apply list_elem_of_filter in Hin. by rewrite decide_True by tauto.
  - rewrite decide_False; [done|]. intros [? ?]. apply Hout.
    by apply list_elem_of_filter.
Qed.

(** The order in which the sweep ranges over the keys does not matter: the
    resulting map is the same and the same lines are printed, in another
    order. *)
Lemma sweep_Permutation (cur : gset string) (keys keys' : list string)
    (m : gmap string FileInfo) (out : list Event) :
  keys ≡ₚ keys' →
  (sweep cur keys (m, out)).1 = (sweep cur keys' (m, out)).1 ∧
  (sweep cur keys (m, out)).2 ≡ₚ (sweep cur keys' (m, out)).2.
Proof.
  intros Hperm. split.
  - apply map_eq. intros p. rewrite !sweep_lookup.
    destruct (decide (p ∈ keys ∧ p ∉ cur)) as [[H1 H2]|Hn].
    + rewrite decide_True; [done|]. split; [by rewrite <- Hperm|done].
    + rewrite decide_False; [done|]. intros [H1 H2]. apply Hn.
      split; [by rewrite Hperm|done].
  - rewrite !sweep_closed_form. simpl. by rewrite Hperm.
Qed.

(** ** One pass of [checkChanges] *)

Section OnePass.
Variable w : Walker.
Variable fw : FileWatcher.

Lemma checkChanges_unfold :
  checkChanges w fw =
    let s := foldl stepVisit (mkPass ∅ (fileStates fw) []) (passVisits w 0 (directories fw)) in
    (mkFileWatcher (directories fw)
       (sweep (currentFiles s) (rangeKeys (states s)) (states s, printed s)).1
       (interval fw),
     (sweep (currentFiles s) (rangeKeys (states s)) (states s, printed s)).2).
Proof.
  unfold checkChanges. rewrite checkDirs_foldl. simpl.
  by destruct (sweep _ _ _).
Qed.

Lemma observed_listed : observed w fw = listed (passVisits w 0 (directories fw)).
Proof.
  unfold observed. rewrite checkDirs_foldl, currentFiles_foldl.
  simpl. set_solver.
Qed.

Lemma checkChanges_directories : directories (checkChanges w fw).1 = directories fw.
Proof. by rewrite checkChanges_unfold. Qed.

Lemma checkChanges_interval : interval (checkChanges w fw).1 = interval fw.
Proof. by rewrite checkChanges_unfold. Qed.

(** The map after the pass: a path that was not listed is gone, a listed
    path holds the last descriptor seen for it, or else its old record. *)
Lemma checkChanges_lookup (p : string) :
  fileStates (checkChanges w fw).1 !! p =
    if decide (p ∈ listed (passVisits w 0 (directories fw)))
    then from_option Some (fileStates fw !! p) (last (seenFor p (passVisits w 0 (directories fw))))
    else None.
Proof.
  rewrite checkChanges_unfold. cbn [fst fileStates].
  rewrite sweep_lookup, currentFiles_foldl, states_foldl. cbn [currentFiles states].
  rewrite (left_id_L ∅ (∪)).
  destruct (decide (p ∈ listed (passVisits w 0 (directories fw)))) as [Hin|Hout].
  - rewrite decide_False; [done|]. tauto.
  - destruct (decide (_ ∧ _)) as [|Hn]; [done|].
    rewrite seenFor_not_listed by done. simpl.
    destruct (fileStates fw !! p) as [old|] eqn:E; [|done].
    exfalso. apply Hn. split; [|done]. unfold rangeKeys.
    apply elem_of_elements, elem_of_dom. rewrite states_foldl.
    rewrite seenFor_not_listed by done. simpl. by rewrite E.
Qed.

(** The lines of the pass about one path: those of the walks, then the
    line of the sweep when the path was in the map and has not been listed. *)
Lemma checkChanges_eventsFor (p : string) :
  eventsFor p (checkChanges w fw).2 =
    pathEvents p (fileStates fw !! p) (seenFor p (passVisits w 0 (directories fw))) ++
    if decide (is_Some (fileStates fw !! p) ∧ p ∉ listed (passVisits w 0 (directories fw)))
    then [Deleted p] else [].
Proof.
  rewrite checkChanges_unfold. cbn [snd].
  rewrite sweep_events by (unfold rangeKeys; apply NoDup_elements).
  rewrite eventsFor_foldl, currentFiles_foldl. cbn [currentFiles states printed].
  rewrite (left_id_L ∅ (∪)). simpl. f_equal.
  unfold rangeKeys.
  destruct (decide (p ∈ listed (passVisits w 0 (directories fw)))) as [Hin|Hout].
  - rewrite !decide_False; [done|tauto|tauto].
  - assert (p ∈ elements (dom (states (foldl stepVisit
              {| currentFiles := ∅; states := fileStates fw; printed := [] |} (passVisits w 0 (directories fw)))))
            ↔ is_Some (fileStates fw !! p)) as Hiff.
    { rewrite elem_of_elements, elem_of_dom, states_foldl.
      by rewrite seenFor_not_listed by done. }
    destruct (decide (is_Some (fileStates fw !! p) ∧ p ∉ listed (passVisits w 0 (directories fw)))) as [[H1 H2]|Hn].
    + rewrite decide_True; [done|]. split; [by apply Hiff|done].
    + rewrite decide_False; [done|]. intros [H1 H2]. apply Hn.
      split; [by apply Hiff|done].
Qed.
End OnePass.

(** ** Counting lines *)

Lemma countEvent_eventsFor (e : Event) (l : list Event) :
  countEvent e l = countEvent e (eventsFor (event_path e) l).
Proof.
  unfold countEvent, eventsFor. induction l as [|x l IH]; [done|].
  rewrite filter_cons. simpl.
  destruct (Event_eq_dec x e) as [->|Hne].
  - rewrite decide_True by done. simpl.
    destruct (Event_eq_dec e e); [|done]. by rewrite IH.
  - destruct (decide (event_path x = event_path e)); [|done].
    simpl. destruct (Event_eq_dec x e); [done|]. done.
Qed.

Lemma countEvent_app (e : Event) (l1 l2 : list Event) :
  countEvent e (l1 ++ l2) = (countEvent e l1 + countEvent e l2)%nat.
Proof. apply count_occ_app. Qed.

Lemma countEvent_cons_eq (e : Event) (l : list Event) :
  countEvent e (e :: l) = S (countEvent e l).
Proof. by apply count_occ_cons_eq. Qed.

Lemma countEvent_cons_ne (e x : Event) (l : list Event) :
  x ≠ e → countEvent e (x :: l) = countEvent e l.
Proof. by apply count_occ_cons_neq. Qed.

Lemma countEvent_not_in (e : Event) (l : list Event) :
  e ∉ l → countEvent e l = 0%nat.
Proof.
  intros H. apply count_occ_not_In. by rewrite <- list_elem_of_In.
Qed.

Lemma Created_not_in_modifications (p q : string) (a b : FileInfo) :
  Created p ∉ modifications q a b.
Proof.
  unfold modifications. intros H.
  repeat (apply elem_of_app in H as [H|H]);
    destruct (decide _); set_unfold; naive_solver.
Qed.

Lemma Deleted_not_in_modifications (p q : string) (a b : FileInfo) :
  Deleted p ∉ modifications q a b.
Proof.
  unfold modifications. intros H.
  repeat (apply elem_of_app in H as [H|H]);
    destruct (decide _); set_unfold; naive_solver.
Qed.

Lemma Created_not_in_pathEvents_Some (p q : string) (old : FileInfo)
    (seen : list FileInfo) :
  Created p ∉ pathEvents q (Some old) seen.
Proof.
  revert old. induction seen as [|st seen IH]; intros old; simpl.
  - apply not_elem_of_nil.
  - intros [H|H]%elem_of_app; [by eapply Created_not_in_modifications|by eapply IH].
Qed.

Lemma Deleted_not_in_pathEvents (p q : string) (old : option FileInfo)
    (seen : list FileInfo) :
  Deleted p ∉ pathEvents q old seen.
Proof.
  revert old. induction seen as [|st seen IH]; intros old; simpl.
  - apply not_elem_of_nil.
  - intros [H|H]%elem_of_app; [|by eapply IH].
    destruct old; [by eapply Deleted_not_in_modifications|].
    by apply list_elem_of_singleton in H.
Qed.

Lemma elem_of_walkOutput (p : string) (st : FileInfo) (vs : list Visit) :
  (p, st) ∈ walkOutput vs ↔ st ∈ seenFor p vs.
Proof.
  rewrite elem_of_seenFor. unfold walkOutput. rewrite list_elem_of_omap. split.
  - intros (v & Hv & H). exists v. destruct (statOf v) as [st'|]; [|done].
    simpl in H. injection H as <- <-. done.
  - intros (v & Hv & <- & Hst). exists v. by rewrite Hst.
Qed.

Lemma seenFor_listed (p : string) (st : FileInfo) (vs : list Visit) :
  st ∈ seenFor p vs → p ∈ listed vs.
Proof.
  intros (v & Hv & Hp & Hst)%elem_of_seenFor. apply elem_of_listed.
  eauto using statOf_listed.
Qed.

Lemma last_elem_of {A : Type} (l : list A) (x : A) : last l = Some x → x ∈ l.
Proof.
  intros H. apply last_Some in H as [l' ->]. apply elem_of_app. right. left.
Qed.

(** ** Created *)

(** C1. A path that the map does not hold and that a periodic pass stats
    successfully gets exactly one "File created" line in that pass, and the
    map afterwards holds for it the descriptor observed last in the pass. *)
Theorem created_exactly_once (w : Walker) (fw : FileWatcher) (p : string)
    (st : FileInfo) :
  fileStates fw !! p = None →
  (p, st) ∈ walkOutput (passVisits w 0 (directories fw)) →
  countEvent (Created p) (checkChanges w fw).2 = 1%nat ∧
  ∃ st', (p, st') ∈ walkOutput (passVisits w 0 (directories fw)) ∧
         last (seenFor p (passVisits w 0 (directories fw))) = Some st' ∧
         fileStates (checkChanges w fw).1 !! p = Some st'.
Proof.
  intros Hnew Hout. apply elem_of_walkOutput in Hout.
  pose proof (seenFor_listed _ _ _ Hout) as Hlisted.
  split.
  - rewrite countEvent_eventsFor. cbn [event_path].
    rewrite checkChanges_eventsFor, Hnew.
    rewrite decide_False by tauto. rewrite app_nil_r.
    destruct (seenFor p _) as [|st0 rest]; [by apply elem_of_nil in Hout|].
    cbn [pathEvents]. rewrite countEvent_app.
    rewrite (countEvent_not_in (Created p) (pathEvents p (Some st0) rest))
      by apply Created_not_in_pathEvents_Some.
    by rewrite countEvent_cons_eq.
  - rewrite checkChanges_lookup, decide_True by done.
    destruct (last (seenFor p _)) as [st'|] eqn:Hlast.
    + exists st'. split; [|done]. apply elem_of_walkOutput.
      by apply last_elem_of.
    + apply last_None in Hlast. rewrite Hlast in Hout.
      by apply elem_of_nil in Hout.
Qed.

(** Scenario 1: [D] is watched and empty, [D/a.txt] appears before the tick. *)
Lemma created_exactly_once_witness :
  countEvent (Created Scenario.pathA)
    (checkChanges Scenario.findsA Scenario.knowsD).2 = 1%nat ∧
  ∃ st', (Scenario.pathA, st') ∈
           walkOutput (passVisits Scenario.findsA 0 (directories Scenario.knowsD)) ∧
         last (seenFor Scenario.pathA
                 (passVisits Scenario.findsA 0 (directories Scenario.knowsD))) = Some st' ∧
         fileStates (checkChanges Scenario.findsA Scenario.knowsD).1 !! Scenario.pathA
           = Some st'.
Proof.
  apply (created_exactly_once Scenario.findsA Scenario.knowsD Scenario.pathA
           Scenario.fileA).
  - vm_compute. reflexivity.
  - by_evaluation.
Defined.

(** ** Deleted *)

(** C2. A path that the map holds and that is not in the observed set of a
    pass gets exactly one "File deleted" line in that pass (printed by the
    deletion sweep, the walks print none), and the map no longer holds it
    afterwards. *)
Theorem deleted_exactly_once (w : Walker) (fw : FileWatcher) (p : string) :
  is_Some (fileStates fw !! p) →
  p ∉ observed w fw →
  countEvent (Deleted p) (checkChanges w fw).2 = 1%nat ∧
  countEvent (Deleted p)
    (printed (checkDirs w 0 (directories fw) (mkPass ∅ (fileStates fw) []))) = 0%nat ∧
  fileStates (checkChanges w fw).1 !! p = None.
Proof.
  rewrite observed_listed. intros Hold Hout. split; [|split].
  - rewrite countEvent_eventsFor. cbn [event_path].
    rewrite checkChanges_eventsFor, seenFor_not_listed by done.
    rewrite decide_True by done. cbn [pathEvents app].
    by rewrite countEvent_cons_eq.
  - rewrite countEvent_eventsFor. cbn [event_path].
    rewrite checkDirs_foldl, eventsFor_foldl. simpl.
    apply countEvent_not_in, Deleted_not_in_pathEvents.
  - by rewrite checkChanges_lookup, decide_False.
Qed.

(** Scenario 3: [D/a.txt] is in the map and has been removed from [D]. *)
Lemma deleted_exactly_once_witness :
  countEvent (Deleted Scenario.pathA)
    (checkChanges Scenario.findsD Scenario.knowsA).2 = 1%nat ∧
  countEvent (Deleted Scenario.pathA)
    (printed (checkDirs Scenario.findsD 0 (directories Scenario.knowsA)
                (mkPass ∅ (fileStates Scenario.knowsA) []))) = 0%nat ∧
  fileStates (checkChanges Scenario.findsD Scenario.knowsA).1 !! Scenario.pathA = None.
Proof.
  apply (deleted_exactly_once Scenario.findsD Scenario.knowsA Scenario.pathA).
  - exists Scenario.fileA. vm_compute. reflexivity.
  - by_evaluation.
Defined.

(** ** Paths that cannot be read during a periodic pass *)

(** C3, as stated, fails: [D/a.txt] is in the map, the pass lists it without
    error and [os.Stat] then fails.  The callback has already recorded the
    path in [currentFiles]: it is in the observed set, the sweep leaves it
    alone, the map still holds its old record and the pass prints nothing. *)
Lemma unreadable_path_not_omitted :
  Scenario.statFails Scenario.pathA ∈
    passVisits Scenario.cannotStatA 0 (directories Scenario.knowsA) ∧
  ¬ (Scenario.pathA ∉ observed Scenario.cannotStatA Scenario.knowsA) ∧
  (checkChanges Scenario.cannotStatA Scenario.knowsA).2 = [] ∧
  fileStates (checkChanges Scenario.cannotStatA Scenario.knowsA).1 !! Scenario.pathA
    = Some Scenario.fileA.
Proof.
  split; [|split; [|split]].
  - by_evaluation.
  - by_evaluation.
  - vm_compute. reflexivity.
  - vm_compute. reflexivity.
Qed.

(** When [Walk] itself reports the error, the path is omitted and the sweep
    of the same pass prints its line. *)
Example walk_error_path_deleted :
  (Scenario.pathA ∉ observed Scenario.cannotListA Scenario.knowsA) ∧
  (checkChanges Scenario.cannotListA Scenario.knowsA).2 = [Deleted Scenario.pathA] ∧
  fileStates (checkChanges Scenario.cannotListA Scenario.knowsA).1 !! Scenario.pathA
    = None.
Proof.
  split; [|split].
  - by_evaluation.
  - vm_compute. reflexivity.
  - vm_compute. reflexivity.
Qed.

(** C3, amended.  A path of the map is visited during a periodic pass and no
    visit of it can be stat'ed.  No error is surfaced: the callback returns
    nil.  When every visit of the path carries an error from [Walk], the path
    is omitted from the observed set and the sweep of this pass prints its
    "File deleted" line and removes it.  When some visit is handed over
    without error and only [getFileInfo] fails, the path is in the observed
    set, this pass prints nothing about it and the map keeps its old record;
    its "File deleted" line is printed by the next pass, provided that pass
    does not observe the path. *)
Theorem unreadable_path_reconciled (w : Walker) (fw : FileWatcher) (p : string)
    (v0 : Visit) (old : FileInfo) :
  v0 ∈ passVisits w 0 (directories fw) →
  v_path v0 = p →
  (∀ v, v ∈ passVisits w 0 (directories fw) → v_path v = p → statOf v = None) →
  fileStates fw !! p = Some old →
  (∀ s, snd (checkVisit v0 s) = None) ∧
  (∀ i dir s, snd (Walk (w i dir) checkVisit s) = None) ∧
  ((∀ v, v ∈ passVisits w 0 (directories fw) → v_path v = p → is_Some (v_err v)) →
     (p ∉ observed w fw) ∧
     eventsFor p (checkChanges w fw).2 = [Deleted p] ∧
     fileStates (checkChanges w fw).1 !! p = None) ∧
  ((∃ v, v ∈ passVisits w 0 (directories fw) ∧ v_path v = p ∧ v_err v = None) →
     p ∈ observed w fw ∧
     eventsFor p (checkChanges w fw).2 = [] ∧
     fileStates (checkChanges w fw).1 !! p = Some old ∧
     ∀ w', p ∉ observed w' (checkChanges w fw).1 →
       eventsFor p (checkChanges w' (checkChanges w fw).1).2 = [Deleted p] ∧
       fileStates (checkChanges w' (checkChanges w fw).1).1 !! p = None).
Proof.
  intros Hv0 Hp0 Hall Hold.
  assert (seenFor p (passVisits w 0 (directories fw)) = []) as Hseen.
  { destruct (seenFor p _) as [|st l] eqn:E; [done|].
    assert (st ∈ seenFor p (passVisits w 0 (directories fw))) as Hin
      by (rewrite E; left).
    apply elem_of_seenFor in Hin as (v & Hv & Hpv & Hst).
    by rewrite (Hall v Hv Hpv) in Hst. }
  split; [intros s; apply checkVisit_nil|].
  split; [intros i dir s; by rewrite Walk_checkVisit|]. split.
  - intros Herr.
    assert (p ∉ listed (passVisits w 0 (directories fw))) as Hout.
    { intros (v & Hv & Hpv & He)%elem_of_listed.
      destruct (Herr v Hv Hpv) as [e He']. congruence. }
    rewrite observed_listed, checkChanges_eventsFor, checkChanges_lookup, Hseen, Hold.
    rewrite decide_True by eauto. by rewrite decide_False.
  - intros Hlisted. apply elem_of_listed in Hlisted.
    assert (fileStates (checkChanges w fw).1 !! p = Some old) as Hkept.
    { rewrite checkChanges_lookup, Hseen, Hold. by rewrite decide_True. }
    rewrite observed_listed, checkChanges_eventsFor, Hseen, Hold.
    rewrite decide_False by tauto.
    split; [done|]. split; [done|]. split; [done|].
    intros w'. rewrite observed_listed. intros Hout.
    rewrite checkChanges_eventsFor, Hkept, checkChanges_lookup, Hkept.
    rewrite seenFor_not_listed by done.
    rewrite decide_True by eauto. by rewrite decide_False.
Qed.

(** Scenario: [D/a.txt] is listed and cannot be stat'ed in one pass; the next
    pass finds [D] without it. *)
Lemma unreadable_path_reconciled_witness :
  Scenario.pathA ∈ observed Scenario.cannotStatA Scenario.knowsA ∧
  eventsFor Scenario.pathA (checkChanges Scenario.cannotStatA Scenario.knowsA).2 = [] ∧
  fileStates (checkChanges Scenario.cannotStatA Scenario.knowsA).1 !! Scenario.pathA
    = Some Scenario.fileA ∧
  eventsFor Scenario.pathA
    (checkChanges Scenario.findsD
       (checkChanges Scenario.cannotStatA Scenario.knowsA).1).2
    = [Deleted Scenario.pathA] ∧
  fileStates
    (checkChanges Scenario.findsD
       (checkChanges Scenario.cannotStatA Scenario.knowsA).1).1
    !! Scenario.pathA = None.
Proof.
  destruct (unreadable_path_reconciled Scenario.cannotStatA Scenario.knowsA
              Scenario.pathA (Scenario.statFails Scenario.pathA) Scenario.fileA)
    as (_ & _ & _ & Hstat).
  - by_evaluation.
  - reflexivity.
  - intros v Hv Hp. vm_compute in Hv. elem_of_cases Hv; subst v.
    + vm_compute in Hp. discriminate.
    + reflexivity.
  - vm_compute. reflexivity.
  - destruct Hstat as (Hobs & Hev & Hkept & Hnext).
    + exists (Scenario.statFails Scenario.pathA). split; [by_evaluation|done].
    + split; [done|]. split; [done|]. split; [done|].
      apply (Hnext Scenario.findsD). by_evaluation.
Defined.

(** ** The keys of the map after a pass *)

Lemma elem_of_okPaths (p : string) (vs : list Visit) :
  p ∈ okPaths vs ↔ is_Some (last (seenFor p vs)).
Proof.
  unfold okPaths. rewrite elem_of_list_to_set, list_elem_of_fmap. split.
  - intros ([q st] & -> & Hin). simpl. apply elem_of_walkOutput in Hin.
    destruct (last (seenFor q vs)) eqn:E; [by eauto|].
    apply last_None in E. rewrite E in Hin. by apply elem_of_nil in Hin.
  - intros [st Hst]. exists (p, st). split; [done|].
    by apply elem_of_walkOutput, last_elem_of.
Qed.

Lemma okPaths_listed (vs : list Visit) : okPaths vs ⊆ listed vs.
Proof.
  intros p [st Hst]%elem_of_okPaths.
  by apply (seenFor_listed p st), last_elem_of.
Qed.

(** C4, as stated, fails: after the pass that lists [D/a.txt] and [D/link]
    but can stat neither, the key [D/a.txt] is still in the map although the
    pass has not observed it successfully, so the key set is not the set of
    successfully observed paths; nor is it the set [currentFiles], which holds
    [D/link]. *)
Lemma keys_not_exactly_observed :
  dom (fileStates (checkChanges Scenario.cannotStatTwo Scenario.knowsA).1) ≠
    okPaths (passVisits Scenario.cannotStatTwo 0 (directories Scenario.knowsA)) ∧
  dom (fileStates (checkChanges Scenario.cannotStatTwo Scenario.knowsA).1) ≠
    observed Scenario.cannotStatTwo Scenario.knowsA.
Proof.
  split.
  - intros Heq.
    assert (Scenario.pathA ∈
      dom (fileStates (checkChanges Scenario.cannotStatTwo Scenario.knowsA).1)) as Hin.
    { apply elem_of_dom. exists Scenario.fileA. vm_compute. reflexivity. }
    rewrite Heq in Hin. apply elem_of_okPaths in Hin as [st Hst].
    vm_compute in Hst. discriminate.
  - intros Heq.
    assert (Scenario.pathLink ∈ observed Scenario.cannotStatTwo Scenario.knowsA) as Hin.
    { by_evaluation. }
    rewrite <- Heq in Hin. apply elem_of_dom in Hin as [st Hst].
    vm_compute in Hst. discriminate.
Qed.

(** C4, amended.  After every completed pass the keys of the map are the
    paths successfully observed during the pass together with the keys held
    before that the pass listed without being able to stat them; every key
    has been listed during the pass (a key whose path was not listed does not
    remain), each successfully observed path holds the descriptor observed
    last, and the keys are unique.  When every listed path could be stat'ed,
    the keys are exactly the successfully observed paths. *)
Theorem keys_after_pass (w : Walker) (fw : FileWatcher) :
  dom (fileStates (checkChanges w fw).1) =
    okPaths (passVisits w 0 (directories fw)) ∪
    (dom (fileStates fw) ∩ observed w fw ∖ okPaths (passVisits w 0 (directories fw))) ∧
  dom (fileStates (checkChanges w fw).1) ⊆ observed w fw ∧
  (∀ p, p ∈ okPaths (passVisits w 0 (directories fw)) →
        fileStates (checkChanges w fw).1 !! p =
          last (seenFor p (passVisits w 0 (directories fw)))) ∧
  NoDup (rangeKeys (fileStates (checkChanges w fw).1)) ∧
  ((∀ v, v ∈ passVisits w 0 (directories fw) → v_err v = None → is_Some (statOf v)) →
     dom (fileStates (checkChanges w fw).1) = okPaths (passVisits w 0 (directories fw))).
Proof.
  assert (∀ p, p ∈ dom (fileStates (checkChanges w fw).1) ↔
            p ∈ okPaths (passVisits w 0 (directories fw)) ∨
            (p ∈ dom (fileStates fw) ∧ p ∈ observed w fw ∧
             p ∉ okPaths (passVisits w 0 (directories fw)))) as Hdom.
  { intros p. rewrite observed_listed, !elem_of_dom, elem_of_okPaths, checkChanges_lookup.
    destruct (decide (p ∈ listed _)) as [Hin|Hout].
    - destruct (last (seenFor p _)) as [st|]; simpl.
      + split; [eauto|]. intros _. eauto.
      + split; [intros H; right; split; [done|]; split; [done|]; by intros [? ?]|].
        intros [[? ?]|[? _]]; done.
    - rewrite seenFor_not_listed by done. simpl. split; [by intros [? ?]|].
      intros [[? ?]|(_ & ? & _)]; done. }
  split; [|split; [|split; [|split]]].
  - apply set_eq. intros p. rewrite Hdom. set_solver.
  - intros p. rewrite Hdom. intros [Hok|(_ & Hobs & _)]; [|done].
    rewrite observed_listed. by apply okPaths_listed.
  - intros p Hok. rewrite checkChanges_lookup.
    rewrite decide_True by (by apply okPaths_listed).
    apply elem_of_okPaths in Hok as [st ->]. done.
  - unfold rangeKeys. apply NoDup_elements.
  - intros Hall. apply set_eq. intros p. rewrite Hdom. split; [|by left].
    intros [Hok|(_ & Hobs & Hnot)]; [done|]. exfalso. apply Hnot.
    rewrite observed_listed in Hobs.
    apply elem_of_listed in Hobs as (v & Hv & Hp & He).
    destruct (Hall v Hv He) as [st Hst]. apply elem_of_okPaths.
    destruct (last (seenFor p _)) eqn:E; [by eauto|].
    apply last_None in E.
    assert (st ∈ seenFor p (passVisits w 0 (directories fw))) as Hin
      by (apply elem_of_seenFor; eauto).
    rewrite E in Hin. by apply elem_of_nil in Hin.
Qed.

(** Scenario 1 again: every listed path can be stat'ed, and the keys are
    the observed paths [D] and [D/a.txt]. *)
Lemma keys_after_pass_witness :
  dom (fileStates (checkChanges Scenario.findsA Scenario.knowsD).1) =
    okPaths (passVisits Scenario.findsA 0 (directories Scenario.knowsD)) ∧
  dom (fileStates (checkChanges Scenario.findsA Scenario.knowsD).1) =
    {[Scenario.pathD; Scenario.pathA]}.
Proof.
  destruct (keys_after_pass Scenario.findsA Scenario.knowsD) as (_ & _ & _ & _ & Hall).
  assert (dom (fileStates (checkChanges Scenario.findsA Scenario.knowsD).1) =
    okPaths (passVisits Scenario.findsA 0 (directories Scenario.knowsD))) as Heq.
  { apply Hall. intros v Hv _. vm_compute in Hv.
    elem_of_cases Hv; subst v; vm_compute; eauto. }
  split; [done|]. rewrite Heq. by_evaluation.
Defined.

(** ** Passes that see no change *)

Lemma modifications_sameMeta (p : string) (a b : FileInfo) :
  sameMeta a b → modifications p a b = [].
Proof.
  intros (H1 & H2 & H3). unfold modifications.
  by rewrite !decide_False by (intros H; by apply H).
Qed.

Lemma sameMeta_trans (a b c : FileInfo) : sameMeta a b → sameMeta b c → sameMeta a c.
Proof. unfold sameMeta. intros (-> & -> & ->) (-> & -> & ->). done. Qed.

Lemma sameMeta_sym (a b : FileInfo) : sameMeta a b → sameMeta b a.
Proof. unfold sameMeta. intros (-> & -> & ->). done. Qed.

Lemma pathEvents_sameMeta (p : string) (old : FileInfo) (seen : list FileInfo) :
  (∀ st, st ∈ seen → sameMeta old st) → pathEvents p (Some old) seen = [].
Proof.
  revert old. induction seen as [|st seen IH]; intros old H; [done|].
  cbn [pathEvents]. rewrite modifications_sameMeta by (apply H; left).
  simpl. apply IH. intros st' Hst'.
  apply (sameMeta_trans _ old); [apply sameMeta_sym, H; left|apply H; by right].
Qed.

Lemma events_nil_by_path (l : list Event) : (∀ p, eventsFor p l = []) → l = [].
Proof.
  destruct l as [|e l]; [done|]. intros H. specialize (H (event_path e)).
  unfold eventsFor in H. rewrite filter_cons, decide_True in H by done. done.
Qed.

(** A pass prints nothing when no path has lines from the walks and every
    key of the map has been listed. *)
Lemma pass_silent (w : Walker) (fw : FileWatcher) :
  (∀ p, pathEvents p (fileStates fw !! p)
          (seenFor p (passVisits w 0 (directories fw))) = []) →
  (∀ p, is_Some (fileStates fw !! p) → p ∈ listed (passVisits w 0 (directories fw))) →
  (checkChanges w fw).2 = [].
Proof.
  intros Hwalk Hkeys. apply events_nil_by_path. intros p.
  rewrite checkChanges_eventsFor, Hwalk. rewrite decide_False; [done|].
  intros [Hsome Hout]. by apply Hout, Hkeys.
Qed.

(** C5. When the walk output of a pass is identical to the map held before
    it (every observed descriptor belongs to a path of the map and has the
    size, modification time and mode recorded there, and every path of the map
    is observed), the pass prints nothing. *)
Theorem unchanged_pass_prints_nothing (w : Walker) (fw : FileWatcher) :
  (∀ p st, (p, st) ∈ walkOutput (passVisits w 0 (directories fw)) →
           ∃ old, fileStates fw !! p = Some old ∧ sameMeta old st) →
  (∀ p, is_Some (fileStates fw !! p) →
        p ∈ okPaths (passVisits w 0 (directories fw))) →
  (checkChanges w fw).2 = [].
Proof.
  intros Hsame Hkeys. apply pass_silent.
  - intros p. destruct (seenFor p _) as [|st0 rest] eqn:E; [done|].
    destruct (Hsame p st0) as (old & Hold & Hmeta).
    { apply elem_of_walkOutput. rewrite E. left. }
    rewrite Hold, <- E. apply pathEvents_sameMeta. intros st Hst.
    destruct (Hsame p st) as (old' & Hold' & Hmeta').
    { by apply elem_of_walkOutput. }
    congruence.
  - intros p Hp. by apply okPaths_listed, Hkeys.
Qed.

Lemma unchanged_pass_prints_nothing_witness :
  (checkChanges Scenario.findsA Scenario.knowsA).2 = [].
Proof.
  apply (unchanged_pass_prints_nothing Scenario.findsA Scenario.knowsA).
  - intros p st Hin. vm_compute in Hin. elem_of_cases Hin; injection Hin as -> ->.
    + exists Scenario.dirD. split; [vm_compute; reflexivity|done].
    + exists Scenario.fileA. split; [vm_compute; reflexivity|done].
  - intros p [old Hold]. cbn [Scenario.knowsA Scenario.watching fileStates] in Hold.
    apply elem_of_list_to_map_2 in Hold. apply elem_of_okPaths.
    elem_of_cases Hold; injection Hold as -> ->; vm_compute; eauto.
Defined.

(** Idempotence over two consecutive passes: when the second pass makes the
    same callback invocations as the first and the descriptors seen for one
    path agree on size, modification time and mode, the second pass prints
    nothing, whatever the map held before the first. *)
Lemma second_pass_prints_nothing (w : Walker) (fw : FileWatcher) :
  (∀ p st1 st2, st1 ∈ seenFor p (passVisits w 0 (directories fw)) →
                st2 ∈ seenFor p (passVisits w 0 (directories fw)) →
                sameMeta st1 st2) →
  (checkChanges w (checkChanges w fw).1).2 = [].
Proof.
  intros Hcons. apply pass_silent; rewrite checkChanges_directories.
  - intros p. rewrite checkChanges_lookup.
    destruct (seenFor p _) as [|st0 rest] eqn:E; [done|].
    rewrite decide_True by (apply (seenFor_listed p st0); rewrite E; left).
    destruct (last (st0 :: rest)) as [st|] eqn:Hlast;
      [|by apply last_None in Hlast]. cbn [from_option].
    apply pathEvents_sameMeta. intros st' Hst'. apply (Hcons p); rewrite E; [|done].
    by apply last_elem_of.
  - intros p. rewrite checkChanges_lookup.
    destruct (decide (p ∈ listed _)); [done|]. by intros [? ?].
Qed.

(** ** Size, time and mode *)

Lemma countEvent_modifications (q : string) (a b : FileInfo) :
  countEvent (SizeChanged q) (modifications q a b) =
    (if decide (Size a ≠ Size b) then 1 else 0)%nat ∧
  countEvent (TimeChanged q) (modifications q a b) =
    (if decide (ModTime a ≠ ModTime b) then 1 else 0)%nat ∧
  countEvent (AttributesChanged q) (modifications q a b) =
    (if decide (Mode a ≠ Mode b) then 1 else 0)%nat.
Proof.
  unfold modifications.
  destruct (decide (Size a ≠ Size b)), (decide (ModTime a ≠ ModTime b)),
    (decide (Mode a ≠ Mode b)); cbn [app];
    rewrite ?countEvent_cons_eq, ?countEvent_cons_ne by done;
    rewrite ?countEvent_cons_eq, ?countEvent_cons_ne by done;
    rewrite ?countEvent_cons_eq, ?countEvent_cons_ne by done; done.
Qed.

(** C6. A path of the map that the pass observes with another size and the
    same modification time and mode gets exactly one "size changed" line and
    no "time changed" or "attributes modified" line (the only line about it is
    the "size changed" one).  The three lines are independent: on each visit
    of a path of the map each of them is printed once or not at all,
    according to its own comparison alone. *)
Theorem size_change_only (w : Walker) (fw : FileWatcher) (p : string)
    (old new : FileInfo) :
  fileStates fw !! p = Some old →
  p ∈ okPaths (passVisits w 0 (directories fw)) →
  (∀ st, (p, st) ∈ walkOutput (passVisits w 0 (directories fw)) → sameMeta new st) →
  Size old ≠ Size new → ModTime old = ModTime new → Mode old = Mode new →
  (eventsFor p (checkChanges w fw).2 = [SizeChanged p] ∧
   countEvent (SizeChanged p) (checkChanges w fw).2 = 1%nat ∧
   countEvent (TimeChanged p) (checkChanges w fw).2 = 0%nat ∧
   countEvent (AttributesChanged p) (checkChanges w fw).2 = 0%nat) ∧
  (∀ s v st oldInfo,
     statOf v = Some st → states s !! v_path v = Some oldInfo →
     printed (stepVisit s v) = printed s ++ modifications (v_path v) oldInfo st ∧
     countEvent (SizeChanged (v_path v)) (modifications (v_path v) oldInfo st) =
       (if decide (Size oldInfo ≠ Size st) then 1 else 0)%nat ∧
     countEvent (TimeChanged (v_path v)) (modifications (v_path v) oldInfo st) =
       (if decide (ModTime oldInfo ≠ ModTime st) then 1 else 0)%nat ∧
     countEvent (AttributesChanged (v_path v)) (modifications (v_path v) oldInfo st) =
       (if decide (Mode oldInfo ≠ Mode st) then 1 else 0)%nat).
Proof.
  intros Hold Hok Hnew Hsize Htime Hmode.
  assert (eventsFor p (checkChanges w fw).2 = [SizeChanged p]) as Hev.
  { rewrite checkChanges_eventsFor, Hold.
    rewrite decide_False by (intros [_ Hout]; by apply Hout, okPaths_listed).
    rewrite app_nil_r.
    destruct (seenFor p _) as [|st0 rest] eqn:E.
    { apply elem_of_okPaths in Hok as [st Hst]. by rewrite E in Hst. }
    assert (∀ st, st ∈ st0 :: rest → sameMeta new st) as Hall.
    { intros st Hst. apply Hnew, elem_of_walkOutput. by rewrite E. }
    destruct (Hall st0) as (H1 & H2 & H3); [left|].
    cbn [pathEvents]. rewrite pathEvents_sameMeta.
    - unfold modifications.
      rewrite decide_True by congruence.
      rewrite !decide_False by (intros H; apply H; congruence). done.
    - intros st Hst. apply (sameMeta_trans _ new).
      + apply sameMeta_sym, Hall. left.
      + apply Hall. by right. }
  split.
  - split; [done|].
    rewrite (countEvent_eventsFor (SizeChanged p)),
      (countEvent_eventsFor (TimeChanged p)),
      (countEvent_eventsFor (AttributesChanged p)).
    cbn [event_path]. rewrite Hev.
    by rewrite countEvent_cons_eq, !countEvent_cons_ne by done.
  - intros s v st oldInfo Hst Hlook. split.
    + rewrite (stepVisit_ok _ _ _ Hst), Hlook. simpl. by rewrite app_nil_r.
    + apply countEvent_modifications.
Qed.

(** Scenario 2: [D/a.txt] is truncated from ten bytes to none, with the
    modification time unchanged. *)
Lemma size_change_only_witness :
  (eventsFor Scenario.pathA (checkChanges Scenario.findsA_truncated Scenario.knowsA).2
     = [SizeChanged Scenario.pathA] ∧
   countEvent (SizeChanged Scenario.pathA)
     (checkChanges Scenario.findsA_truncated Scenario.knowsA).2 = 1%nat ∧
   countEvent (TimeChanged Scenario.pathA)
     (checkChanges Scenario.findsA_truncated Scenario.knowsA).2 = 0%nat ∧
   countEvent (AttributesChanged Scenario.pathA)
     (checkChanges Scenario.findsA_truncated Scenario.knowsA).2 = 0%nat) ∧
  (∀ s v st oldInfo,
     statOf v = Some st → states s !! v_path v = Some oldInfo →
     printed (stepVisit s v) = printed s ++ modifications (v_path v) oldInfo st ∧
     countEvent (SizeChanged (v_path v)) (modifications (v_path v) oldInfo st) =
       (if decide (Size oldInfo ≠ Size st) then 1 else 0)%nat ∧
     countEvent (TimeChanged (v_path v)) (modifications (v_path v) oldInfo st) =
       (if decide (ModTime oldInfo ≠ ModTime st) then 1 else 0)%nat ∧
     countEvent (AttributesChanged (v_path v)) (modifications (v_path v) oldInfo st) =
       (if decide (Mode oldInfo ≠ Mode st) then 1 else 0)%nat).
Proof.
  apply (size_change_only Scenario.findsA_truncated Scenario.knowsA Scenario.pathA
           Scenario.fileA Scenario.fileA_truncated).
  - vm_compute. reflexivity.
  - by_evaluation.
  - intros st Hin. apply elem_of_walkOutput in Hin. vm_compute in Hin.
    elem_of_cases Hin. by subst st.
  - vm_compute. discriminate.
  - reflexivity.
  - reflexivity.
Defined.

(** ** The directory flag *)

Lemma modifications_forgetDir (p : string) (a b : FileInfo) :
  modifications p (forgetDir a) (forgetDir b) = modifications p a b.
Proof. done. Qed.

Lemma pathEvents_forgetDir (p : string) (old : option FileInfo) (st : FileInfo) :
  pathEvents p (forgetDir <$> old) [forgetDir st] = pathEvents p old [st].
Proof. by destruct old. Qed.

Lemma statOf_forgetDirVisit (v : Visit) :
  statOf (forgetDirVisit v) = forgetDir <$> statOf v.
Proof.
  unfold statOf, forgetDirVisit. simpl.
  destruct (v_err v); [done|]. by destruct (v_stat v).
Qed.

Lemma stepVisit_forgetDir (s : Pass) (v : Visit) :
  stepVisit (forgetDirPass s) (forgetDirVisit v) = forgetDirPass (stepVisit s v).
Proof.
  destruct (visit_cases v) as [(e & He & _)|[(e & He & Hs & _)|(st & _ & _ & Hst)]].
  - by rewrite !(stepVisit_walk_error _ _ e).
  - rewrite (stepVisit_stat_error s v e) by done.
    rewrite (stepVisit_stat_error _ (forgetDirVisit v) e); [done|done|].
    simpl. by rewrite Hs.
  - rewrite (stepVisit_ok s v st) by done.
    rewrite (stepVisit_ok _ (forgetDirVisit v) (forgetDir st))
      by (by rewrite statOf_forgetDirVisit, Hst).
    unfold forgetDirPass. cbn [currentFiles states printed forgetDirVisit v_path].
    by rewrite fmap_insert, lookup_fmap, pathEvents_forgetDir.
Qed.

Lemma foldl_stepVisit_forgetDir (vs : list Visit) (s : Pass) :
  foldl stepVisit (forgetDirPass s) (forgetDirVisit <$> vs) =
    forgetDirPass (foldl stepVisit s vs).
Proof.
  revert s. induction vs as [|v vs IH]; intros s; [done|].
  rewrite fmap_cons. cbn [foldl]. by rewrite stepVisit_forgetDir, IH.
Qed.

Lemma passVisits_forgetDir (w : Walker) (i : nat) (dirs : list string) :
  passVisits (forgetDirWalker w) i dirs = forgetDirVisit <$> passVisits w i dirs.
Proof.
  revert i. induction dirs as [|dir rest IH]; intros i; [done|].
  simpl. by rewrite fmap_app, IH.
Qed.

Lemma foldl_delete_fmap (f : FileInfo → FileInfo) (ks : list string)
    (m : gmap string FileInfo) :
  foldl (λ m' k, delete k m') (f <$> m) ks = f <$> foldl (λ m' k, delete k m') m ks.
Proof.
  revert m. induction ks as [|k ks IH]; intros m; [done|].
  simpl. by rewrite <- fmap_delete, IH.
Qed.

(** Clearing every directory flag changes neither the lines of a pass nor,
    up to the flags, the map it leaves. *)
Lemma checkChanges_forgetDir (w : Walker) (fw : FileWatcher) :
  checkChanges (forgetDirWalker w) (forgetDirWatcher fw) =
    (forgetDirWatcher (checkChanges w fw).1, (checkChanges w fw).2).
Proof.
  rewrite !checkChanges_unfold. cbn [directories fileStates interval forgetDirWatcher].
  rewrite passVisits_forgetDir.
  change (mkPass ∅ (forgetDir <$> fileStates fw) [])
    with (forgetDirPass (mkPass ∅ (fileStates fw) [])).
  rewrite foldl_stepVisit_forgetDir.
  set (s := foldl stepVisit _ _). cbn zeta.
  unfold forgetDirPass. cbn [currentFiles states printed fst snd].
  unfold rangeKeys. rewrite dom_fmap_L, !sweep_closed_form. cbn [fst snd].
  unfold forgetDirWatcher. cbn [directories fileStates interval].
  by rewrite foldl_delete_fmap.
Qed.

Lemma string_app_inj_r (s1 s2 : string) (c : Ascii.ascii) :
  s1 +:+ String c "" = s2 +:+ String c "" → s1 = s2.
Proof.
  revert s2. induction s1 as [|a s1 IH]; intros [|b s2]; simpl; intros H.
  - done.
  - injection H as _ H. by destruct s2.
  - injection H as _ H. by destruct s1.
  - injection H as -> H. f_equal. by apply IH.
Qed.

(** Distinct lines of the model are distinct texts. *)
Lemma message_inj (e1 e2 : Event) : message e1 = message e2 → e1 = e2.
Proof.
  destruct e1, e2; simpl; intros H; try discriminate;
    f_equal; injection H as H; by apply string_app_inj_r in H.
Qed.

Lemma message_prefix (e : Event) : ∃ rest, message e = "File " +:+ rest.
Proof. destruct e; simpl; eauto. Qed.

(** C10. The classification never consults the directory flag.  A path of the
    map that the pass observes with the recorded size, modification time and
    mode gets no line, whatever the directory flags are before and after;
    clearing every directory flag, in the map and in what the pass sees,
    leaves the printed lines of the pass unchanged, so that directories get
    the lines regular files get; and every line starts with "File ". *)
Theorem directory_flag_ignored (w : Walker) (fw : FileWatcher) (p : string)
    (old : FileInfo) :
  fileStates fw !! p = Some old →
  p ∈ okPaths (passVisits w 0 (directories fw)) →
  (∀ st, (p, st) ∈ walkOutput (passVisits w 0 (directories fw)) → sameMeta old st) →
  eventsFor p (checkChanges w fw).2 = [] ∧
  (checkChanges (forgetDirWalker w) (forgetDirWatcher fw)).2 = (checkChanges w fw).2 ∧
  (∀ e, e ∈ (checkChanges w fw).2 → ∃ rest, message e = "File " +:+ rest).
Proof.
  intros Hold Hok Hsame. split; [|split].
  - rewrite checkChanges_eventsFor, Hold.
    rewrite decide_False by (intros [_ Hout]; by apply Hout, okPaths_listed).
    rewrite app_nil_r. apply pathEvents_sameMeta.
    intros st Hst. by apply Hsame, elem_of_walkOutput.
  - by rewrite checkChanges_forgetDir.
  - intros e _. apply message_prefix.
Qed.

(** [D/a.txt] is found with the same size, time and mode, as a directory. *)
Lemma directory_flag_ignored_witness :
  IsDir Scenario.fileA ≠ IsDir Scenario.fileA_asDir ∧
  eventsFor Scenario.pathA (checkChanges Scenario.findsA_asDir Scenario.knowsA).2 = [] ∧
  (checkChanges (forgetDirWalker Scenario.findsA_asDir)
     (forgetDirWatcher Scenario.knowsA)).2
    = (checkChanges Scenario.findsA_asDir Scenario.knowsA).2 ∧
  (∀ e, e ∈ (checkChanges Scenario.findsA_asDir Scenario.knowsA).2 →
        ∃ rest, message e = "File " +:+ rest).
Proof.
  split; [discriminate|].
  apply (directory_flag_ignored Scenario.findsA_asDir Scenario.knowsA Scenario.pathA
           Scenario.fileA).
  - vm_compute. reflexivity.
  - by_evaluation.
  - intros st Hin. apply elem_of_walkOutput in Hin. vm_compute in Hin.
    elem_of_cases Hin. by subst st.
Defined.

(** ** Initialization *)

Lemma visitError_None (v : Visit) : visitError v = None ↔ is_Some (statOf v).
Proof.
  unfold visitError, statOf. destruct (v_err v), (v_stat v);
    split; try done; try (by intros [? ?]); eauto.
Qed.

Lemma visitError_Some (v : Visit) : is_Some (visitError v) ↔ statOf v = None.
Proof.
  unfold visitError, statOf. destruct (v_err v), (v_stat v);
    split; try done; try (by intros [? ?]); eauto.
Qed.

Lemma initVisit_ok (v : Visit) (s : Pass) :
  visitError v = None →
  initVisit v s =
    (mkPass (currentFiles s) (insertAll (states s) [v]) (printed s), None).
Proof.
  unfold visitError, initVisit, insertAll, statOf.
  destruct (v_err v) eqn:E1; [done|].
  destruct (v_stat v) as [e|st] eqn:E2; [done|]. intros _.
  rewrite getFileInfo_inr. cbn [foldl]. by rewrite E1, E2.
Qed.

Lemma initVisit_error (v : Visit) (s : Pass) (err : error) :
  visitError v = Some err → initVisit v s = (s, Some err).
Proof.
  unfold visitError, initVisit. destruct (v_err v); [congruence|].
  destruct (v_stat v) as [e|st]; [|done]. simpl. congruence.
Qed.

Lemma insertAll_app (m : gmap string FileInfo) (vs1 vs2 : list Visit) :
  insertAll m (vs1 ++ vs2) = insertAll (insertAll m vs1) vs2.
Proof. apply foldl_app. Qed.

(** A walk of [initialize] inserts the visits before the first failure and
    returns the error of that failure. *)
Lemma Walk_initVisit (vs : list Visit) (s : Pass) :
  Walk vs initVisit s =
    (mkPass (currentFiles s) (insertAll (states s) (okPrefix vs)) (printed s),
     firstError vs).
Proof.
  revert s. induction vs as [|v vs IH]; intros s; [by destruct s|].
  simpl. destruct (visitError v) as [e|] eqn:E.
  - rewrite (initVisit_error _ _ _ E). by destruct s.
  - by rewrite (initVisit_ok _ _ E), IH.
Qed.

Lemma okPrefix_app (vs1 vs2 : list Visit) :
  okPrefix (vs1 ++ vs2) =
    match firstError vs1 with
    | Some _ => okPrefix vs1
    | None => okPrefix vs1 ++ okPrefix vs2
    end.
Proof.
  induction vs1 as [|v vs1 IH]; [done|].
  simpl. destruct (visitError v); [done|]. rewrite IH.
  by destruct (firstError vs1).
Qed.

Lemma firstError_app (vs1 vs2 : list Visit) :
  firstError (vs1 ++ vs2) =
    match firstError vs1 with Some err => Some err | None => firstError vs2 end.
Proof.
  induction vs1 as [|v vs1 IH]; [done|].
  simpl. by destruct (visitError v).
Qed.

Lemma initDirs_spec (w : Walker) (i : nat) (dirs : list string) (s : Pass) :
  initDirs w i dirs s =
    (mkPass (currentFiles s)
       (insertAll (states s) (okPrefix (passVisits w i dirs))) (printed s),
     firstError (passVisits w i dirs)).
Proof.
  revert i s. induction dirs as [|dir rest IH]; intros i s; [by destruct s|].
  simpl. rewrite Walk_initVisit, okPrefix_app, firstError_app.
  destruct (firstError (w i dir)) as [e|]; [done|].
  rewrite IH. cbn [currentFiles states printed]. by rewrite insertAll_app.
Qed.

(** [initialize] prints nothing; it returns the error of the first visit
    that fails, having inserted the visits before it. *)
Lemma initialize_spec (w : Walker) (fw : FileWatcher) :
  initialize w fw =
    (mkFileWatcher (directories fw)
       (insertAll (fileStates fw) (okPrefix (passVisits w 0 (directories fw))))
       (interval fw),
     [], firstError (passVisits w 0 (directories fw))).
Proof. unfold initialize. by rewrite initDirs_spec. Qed.

Lemma firstError_None (vs : list Visit) :
  firstError vs = None ↔ ∀ v, v ∈ vs → is_Some (statOf v).
Proof.
  induction vs as [|v vs IH]; simpl.
  - split; [by intros _ ? ?%elem_of_nil|done].
  - destruct (visitError v) as [e|] eqn:E.
    + split; [done|]. intros H. destruct (H v) as [st Hst]; [left|].
      assert (is_Some (visitError v)) as Hs by eauto.
      apply visitError_Some in Hs. congruence.
    + rewrite IH. apply visitError_None in E. split.
      * intros H v' [->|Hv']%elem_of_cons; eauto.
      * intros H v' Hv'. apply H. by right.
Qed.

Lemma okPrefix_all (vs : list Visit) : firstError vs = None → okPrefix vs = vs.
Proof.
  induction vs as [|v vs IH]; [done|]. simpl.
  destruct (visitError v); [done|]. intros H. by rewrite IH.
Qed.

Lemma insertAll_lookup (p : string) (vs : list Visit) (m : gmap string FileInfo) :
  insertAll m vs !! p = from_option Some (m !! p) (last (seenFor p vs)).
Proof.
  revert m. induction vs as [|v vs IH]; intros m; [done|].
  rewrite seenFor_cons. unfold insertAll in *. cbn [foldl]. rewrite IH.
  destruct (statOf v) as [st|]; [|by destruct (decide _)].
  destruct (decide (v_path v = p)) as [->|Hne].
  - rewrite lookup_insert_eq, last_cons. by destruct (last (seenFor p vs)).
  - by rewrite lookup_insert_ne.
Qed.

Lemma insertAll_dom (vs : list Visit) (m : gmap string FileInfo) :
  dom (insertAll m vs) = dom m ∪ okPaths vs.
Proof.
  apply set_eq. intros p.
  rewrite elem_of_union, !elem_of_dom, elem_of_okPaths, insertAll_lookup.
  destruct (last (seenFor p vs)); simpl; split; eauto.
  - intros [?|[? ?]]; done.
Qed.

Lemma okPaths_all (vs : list Visit) :
  (∀ v, v ∈ vs → is_Some (statOf v)) →
  okPaths vs = list_to_set (v_path <$> vs).
Proof.
  intros Hall. apply set_eq. intros p.
  rewrite elem_of_list_to_set, list_elem_of_fmap. split.
  - intros [st Hst]%elem_of_okPaths. apply last_elem_of in Hst.
    apply elem_of_seenFor in Hst as (v & ? & ? & ?). eauto.
  - intros (v & -> & Hv). destruct (Hall v Hv) as [st Hst].
    apply elem_of_okPaths.
    destruct (last (seenFor (v_path v) vs)) eqn:E; [by eauto|].
    apply last_None in E.
    assert (st ∈ seenFor (v_path v) vs) as Hin by (apply elem_of_seenFor; eauto).
    rewrite E in Hin. by apply elem_of_nil in Hin.
Qed.

Lemma seenFor_NoDup (p : string) (vs : list Visit) (st1 st2 : FileInfo) :
  NoDup (v_path <$> vs) → st1 ∈ seenFor p vs → st2 ∈ seenFor p vs → st1 = st2.
Proof.
  induction vs as [|v vs IH]; [by intros _ ?%elem_of_nil|].
  rewrite fmap_cons, NoDup_cons, seenFor_cons. intros [Hv Hnd].
  destruct (decide (v_path v = p)) as [<-|Hne]; [|by apply IH].
  assert (seenFor (v_path v) vs = []) as ->.
  { destruct (seenFor (v_path v) vs) as [|st l] eqn:E; [done|]. exfalso.
    assert (st ∈ seenFor (v_path v) vs) as Hin by (rewrite E; left).
    apply elem_of_seenFor in Hin as (v' & Hv' & Hp & _).
    apply Hv, list_elem_of_fmap. eauto. }
  destruct (statOf v); [|by intros ?%elem_of_nil].
  by intros ->%list_elem_of_singleton ->%list_elem_of_singleton.
Qed.

(** A pass over what [initialize] has just inserted changes nothing. *)
Lemma checkChanges_after_insertAll (w : Walker) (dirs : list string) (iv : Z) :
  NoDup (v_path <$> passVisits w 0 dirs) →
  checkChanges w (mkFileWatcher dirs (insertAll ∅ (passVisits w 0 dirs)) iv) =
    (mkFileWatcher dirs (insertAll ∅ (passVisits w 0 dirs)) iv, []).
Proof.
  intros Hnd. set (fw := mkFileWatcher dirs _ iv).
  assert (∀ p, fileStates fw !! p = last (seenFor p (passVisits w 0 dirs))) as Hfw.
  { intros p. unfold fw. cbn [fileStates]. rewrite insertAll_lookup, lookup_empty.
    by destruct (last _). }
  assert ((checkChanges w fw).2 = []) as Hev.
  { apply pass_silent; cbn [directories fw].
    - intros p. rewrite Hfw.
      destruct (last (seenFor p _)) as [st|] eqn:E.
      + apply pathEvents_sameMeta. intros st' Hst'.
        by rewrite (seenFor_NoDup p _ st st' Hnd (last_elem_of _ _ E) Hst').
      + apply last_None in E. by rewrite E.
    - intros p. rewrite Hfw. intros [st Hst].
      by apply (seenFor_listed p st), last_elem_of. }
  assert (fileStates (checkChanges w fw).1 = fileStates fw) as Hmap.
  { apply map_eq. intros p. rewrite checkChanges_lookup, Hfw. cbn [directories fw].
    destruct (decide (p ∈ listed _)) as [Hin|Hout].
    - by destruct (last _).
    - by rewrite seenFor_not_listed. }
  pose proof (checkChanges_directories w fw) as Hd.
  pose proof (checkChanges_interval w fw) as Hi.
  destruct (checkChanges w fw) as [[d m i] evs]. simpl in *. by subst.
Qed.

Lemma tickLoop_unchanged (w : Walker) (k : nat) (dirs : list string) (iv : Z)
    (out : list Event) :
  NoDup (v_path <$> passVisits w 0 dirs) →
  tickLoop (replicate k w)
    (mkFileWatcher dirs (insertAll ∅ (passVisits w 0 dirs)) iv) out =
    (mkFileWatcher dirs (insertAll ∅ (passVisits w 0 dirs)) iv, out).
Proof.
  intros Hnd. induction k as [|k IH]; [done|].
  cbn [replicate tickLoop]. rewrite checkChanges_after_insertAll by done.
  by rewrite app_nil_r.
Qed.

(** C7. Initializing over a tree whose [N] entries can all be stat'ed
    returns nil, prints nothing and leaves a map of exactly [N] entries, each
    path holding its descriptor; no "File created" line is printed for them,
    neither by [initialize] nor by any number [k] of passes over the unchanged
    tree that follow in [Start]. *)
Theorem initialize_silent (w : Walker) (dirs : list string) (k : nat) :
  (∀ v, v ∈ passVisits w 0 dirs → is_Some (statOf v)) →
  NoDup (v_path <$> passVisits w 0 dirs) →
  ∃ fw', initialize w (NewFileWatcher dirs) = (fw', [], None) ∧
         size (fileStates fw') = length (passVisits w 0 dirs) ∧
         (∀ v, v ∈ passVisits w 0 dirs → fileStates fw' !! v_path v = statOf v) ∧
         Start w (replicate k w) (NewFileWatcher dirs) = Ticking fw' [].
Proof.
  intros Hall Hnd. pose proof Hall as Hfirst. apply firstError_None in Hfirst.
  eexists. rewrite initialize_spec. cbn [directories fileStates interval NewFileWatcher].
  rewrite Hfirst, (okPrefix_all _ Hfirst). split; [reflexivity|].
  cbn [fileStates]. split; [|split].
  - rewrite <- size_dom, insertAll_dom, dom_empty_L, (left_id_L ∅ (∪)).
    rewrite okPaths_all by done. rewrite size_list_to_set by done.
    by rewrite length_fmap.
  - intros v Hv. rewrite insertAll_lookup, lookup_empty.
    destruct (Hall v Hv) as [st Hst]. rewrite Hst.
    assert (st ∈ seenFor (v_path v) (passVisits w 0 dirs)) as Hin
      by (apply elem_of_seenFor; eauto).
    destruct (last (seenFor (v_path v) _)) as [st'|] eqn:E.
    + simpl. f_equal. by apply (seenFor_NoDup (v_path v) (passVisits w 0 dirs));
        [|apply last_elem_of|].
    + apply last_None in E. rewrite E in Hin. by apply elem_of_nil in Hin.
  - unfold Start. rewrite initialize_spec.
    cbn [directories fileStates interval NewFileWatcher].
    rewrite Hfirst, (okPrefix_all _ Hfirst).
    by rewrite tickLoop_unchanged.
Qed.

(** [D] holds [a.txt]: two entries, and two further passes over them. *)
Lemma initialize_silent_witness :
  ∃ fw', initialize Scenario.findsA (NewFileWatcher [Scenario.pathD]) = (fw', [], None) ∧
         size (fileStates fw') = length (passVisits Scenario.findsA 0 [Scenario.pathD]) ∧
         (∀ v, v ∈ passVisits Scenario.findsA 0 [Scenario.pathD] →
               fileStates fw' !! v_path v = statOf v) ∧
         Start Scenario.findsA (replicate 2 Scenario.findsA)
           (NewFileWatcher [Scenario.pathD]) = Ticking fw' [].
Proof.
  apply (initialize_silent Scenario.findsA [Scenario.pathD] 2).
  - intros v Hv. vm_compute in Hv. elem_of_cases Hv; subst v; vm_compute; eauto.
  - by_evaluation.
Defined.

(** ** Startup *)

Lemma firstError_Some (vs : list Visit) :
  is_Some (firstError vs) ↔ ∃ v, v ∈ vs ∧ statOf v = None.
Proof.
  induction vs as [|v vs IH]; simpl.
  - split; [by intros [? ?]|by intros (? & ?%elem_of_nil & _)].
  - destruct (visitError v) as [e|] eqn:E.
    + split; [|by eauto]. intros _. exists v. split; [left|].
      apply visitError_Some. eauto.
    + rewrite IH. apply visitError_None in E as [st Hst]. split.
      * intros (v' & Hv' & H). exists v'. split; [by right|done].
      * intros (v' & [->|Hv']%elem_of_cons & H); [congruence|eauto].
Qed.

Lemma Start_spec (init : Walker) (ticks : list Walker) (fw : FileWatcher) :
  Start init ticks fw =
    match firstError (passVisits init 0 (directories fw)) with
    | Some err => Returned err (initialize init fw).1.1 []
    | None =>
        Ticking (tickLoop ticks (initialize init fw).1.1 []).1
                (tickLoop ticks (initialize init fw).1.1 []).2
    end.
Proof.
  unfold Start. rewrite initialize_spec. cbn [fst snd].
  destruct (firstError _); [done|]. by destruct (tickLoop _ _ _).
Qed.

(** C8. The process ends fatally in exactly two cases, both before the ticker
    loop is entered: when no directory is given, with the usage message and
    nothing printed; and when a visit of the initial walk fails ([Walk] reports
    an error, for the root or below it, or a path cannot be stat'ed), in which
    case [Start] returns the error of the first such visit and [main] logs it,
    only the start line having been printed.  Otherwise the process is in
    the ticker loop after any number of ticks. *)
Theorem fatal_startup (args : list string) (init : Walker) (ticks : list Walker) :
  main args init ticks =
    (if (length args <? 2)%nat
     then Fatal "Please provide atleast one directory to watch" []
     else
       match firstError (passVisits init 0 (tail args)) with
       | Some err => Fatal err [startLine (tail args)]
       | None =>
           Running
             (tickLoop ticks (initialize init (NewFileWatcher (tail args))).1.1 []).1
             (startLine (tail args) ::
              map message
                (tickLoop ticks (initialize init (NewFileWatcher (tail args))).1.1 []).2)
       end) ∧
  Start init ticks (NewFileWatcher (tail args)) =
    match firstError (passVisits init 0 (tail args)) with
    | Some err => Returned err (initialize init (NewFileWatcher (tail args))).1.1 []
    | None =>
        Ticking
          (tickLoop ticks (initialize init (NewFileWatcher (tail args))).1.1 []).1
          (tickLoop ticks (initialize init (NewFileWatcher (tail args))).1.1 []).2
    end ∧
  ((∃ msg out, main args init ticks = Fatal msg out) ↔
   (length args < 2)%nat ∨
   ∃ v, v ∈ passVisits init 0 (tail args) ∧ statOf v = None).
Proof.
  assert (main args init ticks =
    (if (length args <? 2)%nat
     then Fatal "Please provide atleast one directory to watch" []
     else
       match firstError (passVisits init 0 (tail args)) with
       | Some err => Fatal err [startLine (tail args)]
       | None =>
           Running
             (tickLoop ticks (initialize init (NewFileWatcher (tail args))).1.1 []).1
             (startLine (tail args) ::
              map message
                (tickLoop ticks (initialize init (NewFileWatcher (tail args))).1.1 []).2)
       end)) as Hmain.
  { unfold main. destruct (length args <? 2)%nat; [done|].
    rewrite Start_spec. cbn [directories NewFileWatcher].
    by destruct (firstError _). }
  split; [done|]. split; [apply Start_spec|].
  rewrite Hmain. rewrite <- firstError_Some.
  destruct (length args <? 2)%nat eqn:Hlen.
  - apply Nat.ltb_lt in Hlen. split; [by left|eauto].
  - apply Nat.ltb_ge in Hlen. destruct (firstError _) as [err|].
    + split; [by right; eauto|eauto].
    + split; [by intros (? & ? & ?)|]. intros [?|[? ?]]; [lia|done].
Qed.

(** No directory on the command line. *)
Example main_without_directory :
  main ["filewatcher"%string] Scenario.findsA [Scenario.findsA] =
    Fatal "Please provide atleast one directory to watch" [].
Proof. reflexivity. Qed.

(** [D/a.txt] cannot be stat'ed during the initial walk: the ticks that
    would follow are never served. *)
Example main_initial_walk_fails :
  main ["filewatcher"%string; Scenario.pathD] Scenario.cannotStatA
    [Scenario.findsD; Scenario.findsA] =
    Fatal "stat: no such file or directory" [startLine [Scenario.pathD]].
Proof. vm_compute. reflexivity. Qed.

(** A tree that can be read: the process runs, and the tick that finds
    [D/a.txt] gone prints its line. *)
Example main_running :
  ∃ fw, main ["filewatcher"%string; Scenario.pathD] Scenario.findsA
          [Scenario.findsA; Scenario.findsD] =
        Running fw [startLine [Scenario.pathD]; message (Deleted Scenario.pathA)].
Proof. eexists. vm_compute. reflexivity. Qed.

(** * Further properties of the code *)

(** ** Which lines a pass prints *)

Lemma elem_of_eventsFor (e : Event) (l : list Event) :
  e ∈ l ↔ e ∈ eventsFor (event_path e) l.
Proof. unfold eventsFor. rewrite list_elem_of_filter. tauto. Qed.

(** A line of a pass is a line of the walks about its path, or the line of
    the sweep for a key that has not been listed. *)
Lemma elem_of_pass_lines (w : Walker) (fw : FileWatcher) (e : Event) :
  e ∈ (checkChanges w fw).2 ↔
    e ∈ pathEvents (event_path e) (fileStates fw !! event_path e)
          (seenFor (event_path e) (passVisits w 0 (directories fw))) ∨
    (e = Deleted (event_path e) ∧ is_Some (fileStates fw !! event_path e) ∧
     event_path e ∉ listed (passVisits w 0 (directories fw))).
Proof.
  rewrite elem_of_eventsFor, checkChanges_eventsFor, elem_of_app.
  destruct (decide (is_Some _ ∧ _ ∉ _)) as [[H1 H2]|Hn].
  - rewrite list_elem_of_singleton. tauto.
  - rewrite elem_of_nil. tauto.
Qed.

Lemma Created_in_pathEvents (p : string) (old : option FileInfo)
    (seen : list FileInfo) :
  Created p ∈ pathEvents p old seen ↔ old = None ∧ seen ≠ [].
Proof.
  destruct seen as [|st rest].
  - simpl. rewrite elem_of_nil. tauto.
  - destruct old as [a|].
    + split; [|by intros [? _]].
      intros H. by apply Created_not_in_pathEvents_Some in H.
    + split; [done|]. intros _. simpl. left.
Qed.

Lemma seenFor_nonempty_okPaths (p : string) (vs : list Visit) :
  seenFor p vs ≠ [] ↔ p ∈ okPaths vs.
Proof.
  rewrite elem_of_okPaths. destruct (seenFor p vs) as [|st l] eqn:E.
  - split; [done|]. by intros [? ?].
  - split; [|done]. intros _. destruct (last (st :: l)) eqn:Hl; [by eauto|].
    by apply last_None in Hl.
Qed.

(** X1. A pass prints "File created" for a path exactly when the map did not
    hold the path and the pass has stat'ed it successfully: never for a path
    the map already holds, never for a path that could not be stat'ed. *)
Theorem created_iff_new_and_observed (w : Walker) (fw : FileWatcher) (p : string) :
  Created p ∈ (checkChanges w fw).2 ↔
    fileStates fw !! p = None ∧ p ∈ okPaths (passVisits w 0 (directories fw)).
Proof.
  rewrite elem_of_pass_lines. cbn [event_path].
  rewrite Created_in_pathEvents, seenFor_nonempty_okPaths. split.
  - intros [H|(H & _)]; [done|discriminate].
  - by left.
Qed.

(** X2. A pass prints "File deleted" for a path exactly when the map held
    the path and the path is not in the observed set; the line is printed at
    most once, and never together with a "File created" line for the same
    path. *)
Theorem deleted_iff_known_and_unobserved (w : Walker) (fw : FileWatcher) (p : string) :
  (Deleted p ∈ (checkChanges w fw).2 ↔
     is_Some (fileStates fw !! p) ∧ p ∉ observed w fw) ∧
  (countEvent (Deleted p) (checkChanges w fw).2 ≤ 1)%nat ∧
  (Deleted p ∈ (checkChanges w fw).2 → Created p ∉ (checkChanges w fw).2).
Proof.
  assert (Deleted p ∈ (checkChanges w fw).2 ↔
     is_Some (fileStates fw !! p) ∧ p ∉ observed w fw) as Hiff.
  { rewrite elem_of_pass_lines, observed_listed. cbn [event_path]. split.
    - intros [H|(_ & H)]; [|done]. by apply Deleted_not_in_pathEvents in H.
    - intros H. by right. }
  split; [done|]. split.
  - rewrite countEvent_eventsFor. cbn [event_path]. rewrite checkChanges_eventsFor.
    rewrite countEvent_app, (countEvent_not_in (Deleted p) (pathEvents _ _ _))
      by apply Deleted_not_in_pathEvents.
    destruct (decide _); [by rewrite countEvent_cons_eq|simpl; lia].
  - rewrite Hiff. intros [[old Hold] _] Hc.
    apply elem_of_pass_lines in Hc. cbn [event_path] in Hc.
    rewrite Created_in_pathEvents in Hc.
    destruct Hc as [[Hnone _]|(H & _)]; [congruence|discriminate].
Qed.

Lemma pathEvents_origin (p : string) (old : option FileInfo) (seen : list FileInfo)
    (e : Event) :
  e ∈ pathEvents p old seen →
  e = Created p ∨
  ∃ a b, (old = Some a ∨ a ∈ seen) ∧ b ∈ seen ∧ e ∈ modifications p a b.
Proof.
  revert old. induction seen as [|st rest IH]; intros old; simpl.
  - by intros ?%elem_of_nil.
  - intros [H|H]%elem_of_app.
    + destruct old as [a|].
      * right. exists a, st. split; [by left|]. split; [left|done].
      * left. by apply list_elem_of_singleton in H.
    + destruct (IH _ H) as [->|(a & b & Ha & Hb & He)]; [by left|].
      right. exists a, b. split; [|split; [by right|done]].
      destruct Ha as [[= <-]|Ha]; right; [left|by right].
Qed.

Lemma modifications_differ (p : string) (a b : FileInfo) :
  (SizeChanged p ∈ modifications p a b → Size a ≠ Size b) ∧
  (TimeChanged p ∈ modifications p a b → ModTime a ≠ ModTime b) ∧
  (AttributesChanged p ∈ modifications p a b → Mode a ≠ Mode b).
Proof.
  unfold modifications.
  destruct (decide (Size a ≠ Size b)), (decide (ModTime a ≠ ModTime b)),
    (decide (Mode a ≠ Mode b)); cbn [app]; repeat split; try done;
    intros H; exfalso; set_unfold; naive_solver.
Qed.

(** X3. A modification line is never printed without cause: when a pass
    prints "size changed" for a path, two descriptors differ in size, the
    second observed for the path in this pass and the first either the record
    the map held or an earlier observation of this pass; likewise for the
    modification time and "time changed", and for the mode and "attributes
    modified". *)
Theorem modification_lines_have_a_cause (w : Walker) (fw : FileWatcher) (p : string) :
  (SizeChanged p ∈ (checkChanges w fw).2 →
     ∃ a b, (fileStates fw !! p = Some a ∨
             a ∈ seenFor p (passVisits w 0 (directories fw))) ∧
            b ∈ seenFor p (passVisits w 0 (directories fw)) ∧ Size a ≠ Size b) ∧
  (TimeChanged p ∈ (checkChanges w fw).2 →
     ∃ a b, (fileStates fw !! p = Some a ∨
             a ∈ seenFor p (passVisits w 0 (directories fw))) ∧
            b ∈ seenFor p (passVisits w 0 (directories fw)) ∧
            ModTime a ≠ ModTime b) ∧
  (AttributesChanged p ∈ (checkChanges w fw).2 →
     ∃ a b, (fileStates fw !! p = Some a ∨
             a ∈ seenFor p (passVisits w 0 (directories fw))) ∧
            b ∈ seenFor p (passVisits w 0 (directories fw)) ∧ Mode a ≠ Mode b).
Proof.
  assert (∀ e, e ∈ (checkChanges w fw).2 → event_path e = p →
            e ≠ Created p → e ≠ Deleted p →
            ∃ a b, (fileStates fw !! p = Some a ∨
                    a ∈ seenFor p (passVisits w 0 (directories fw))) ∧
                   b ∈ seenFor p (passVisits w 0 (directories fw)) ∧
                   e ∈ modifications p a b) as Horigin.
  { intros e He Hp Hc Hd. apply elem_of_pass_lines in He. rewrite Hp in He.
    destruct He as [He|(He & _)]; [|done].
    apply pathEvents_origin in He as [He|He]; done. }
  split; [|split]; intros He;
    destruct (Horigin _ He) as (a & b & Ha & Hb & Hm); try done;
    exists a, b; (split; [done|]); (split; [done|]);
    by apply (modifications_differ p a b).
Qed.

(** X4. A path of the map that a pass observes exactly once gets exactly the
    lines of the three comparisons of its record with the new descriptor, in
    the order size, time, attributes, and the map then holds the new
    descriptor. *)
Theorem known_path_observed_once (w : Walker) (fw : FileWatcher) (p : string)
    (old st : FileInfo) :
  fileStates fw !! p = Some old →
  seenFor p (passVisits w 0 (directories fw)) = [st] →
  eventsFor p (checkChanges w fw).2 =
    (if decide (Size old ≠ Size st) then [SizeChanged p] else []) ++
    (if decide (ModTime old ≠ ModTime st) then [TimeChanged p] else []) ++
    (if decide (Mode old ≠ Mode st) then [AttributesChanged p] else []) ∧
  fileStates (checkChanges w fw).1 !! p = Some st.
Proof.
  intros Hold Hseen.
  assert (p ∈ listed (passVisits w 0 (directories fw))) as Hl.
  { apply (seenFor_listed p st). rewrite Hseen. left. }
  rewrite checkChanges_eventsFor, checkChanges_lookup, Hold, Hseen.
  destruct (decide (is_Some (Some old) ∧ _)) as [[_ Hn]|_]; [done|].
  destruct (decide (p ∈ listed _)); [|done].
  split; [|done]. cbn [pathEvents]. by rewrite !app_nil_r.
Qed.

(** [D/a.txt] rewritten with another size, time and mode: three lines. *)
Lemma known_path_observed_once_witness :
  eventsFor Scenario.pathA (checkChanges Scenario.findsA_rewritten Scenario.knowsA).2 =
    [SizeChanged Scenario.pathA; TimeChanged Scenario.pathA;
     AttributesChanged Scenario.pathA] ∧
  fileStates (checkChanges Scenario.findsA_rewritten Scenario.knowsA).1
    !! Scenario.pathA = Some Scenario.fileA_rewritten.
Proof.
  destruct (known_path_observed_once Scenario.findsA_rewritten Scenario.knowsA
              Scenario.pathA Scenario.fileA Scenario.fileA_rewritten) as [Hev Hmap].
  - vm_compute. reflexivity.
  - vm_compute. reflexivity.
  - split; [|exact Hmap]. rewrite Hev. vm_compute. reflexivity.
Defined.

(** X5. A path that the map does not hold and that no visit of a pass can
    stat (a dangling symbolic link, say) is not reported and does not enter
    the map, although the pass may have listed it. *)
Theorem new_unreadable_path_ignored (w : Walker) (fw : FileWatcher) (p : string) :
  fileStates fw !! p = None →
  (∀ v, v ∈ passVisits w 0 (directories fw) → v_path v = p → statOf v = None) →
  eventsFor p (checkChanges w fw).2 = [] ∧
  fileStates (checkChanges w fw).1 !! p = None.
Proof.
  intros Hnew Hall.
  assert (seenFor p (passVisits w 0 (directories fw)) = []) as Hseen.
  { destruct (seenFor p _) as [|st l] eqn:E; [done|].
    assert (st ∈ seenFor p (passVisits w 0 (directories fw))) as Hin
      by (rewrite E; left).
    apply elem_of_seenFor in Hin as (v & Hv & Hpv & Hst).
    by rewrite (Hall v Hv Hpv) in Hst. }
  rewrite checkChanges_eventsFor, checkChanges_lookup, Hseen, Hnew.
  split.
  - rewrite decide_False; [done|]. by intros [[? ?] _].
  - by destruct (decide _).
Qed.

Lemma new_unreadable_path_ignored_witness :
  Scenario.pathA ∈ observed Scenario.cannotStatA Scenario.knowsD ∧
  eventsFor Scenario.pathA (checkChanges Scenario.cannotStatA Scenario.knowsD).2 = [] ∧
  fileStates (checkChanges Scenario.cannotStatA Scenario.knowsD).1 !! Scenario.pathA
    = None.
Proof.
  split; [by_evaluation|].
  apply (new_unreadable_path_ignored Scenario.cannotStatA Scenario.knowsD
           Scenario.pathA).
  - vm_compute. reflexivity.
  - intros v Hv Hp. vm_compute in Hv. elem_of_cases Hv; subst v.
    + vm_compute in Hp. discriminate.
    + reflexivity.
Defined.

(** ** The order of the lines and of the sweep *)

Lemma Deleted_not_printed_by_walks (p : string) (vs : list Visit)
    (m : gmap string FileInfo) :
  Deleted p ∉ printed (foldl stepVisit (mkPass ∅ m []) vs).
Proof.
  rewrite elem_of_eventsFor. cbn [event_path]. rewrite eventsFor_foldl. simpl.
  apply Deleted_not_in_pathEvents.
Qed.

(** X6. Every "File deleted" line of a pass comes after all the lines
    printed during the walks: the lines of a pass are the lines of the walks,
    none of which is a "File deleted" line, followed by "File deleted" lines
    only, for pairwise distinct paths. *)
Theorem deleted_lines_come_last (w : Walker) (fw : FileWatcher) :
  ∃ swept,
    (checkChanges w fw).2 =
      printed (checkDirs w 0 (directories fw) (mkPass ∅ (fileStates fw) [])) ++ swept ∧
    (∀ p, Deleted p ∉
            printed (checkDirs w 0 (directories fw) (mkPass ∅ (fileStates fw) []))) ∧
    (∀ e, e ∈ swept → e = Deleted (event_path e)) ∧
    NoDup swept.
Proof.
  rewrite checkChanges_unfold, checkDirs_foldl. cbn zeta.
  rewrite sweep_closed_form. cbn [snd]. eexists. split; [reflexivity|].
  split; [|split].
  - intros p. apply Deleted_not_printed_by_walks.
  - intros e (k & -> & _)%list_elem_of_fmap. done.
  - apply NoDup_fmap_2; [by intros ?? [=]|].
    apply NoDup_filter. unfold rangeKeys. apply NoDup_elements.
Qed.

(** X7. Go does not fix the order in which the sweep ranges over the map.
    Whatever order is taken, the pass leaves the same map and prints the same
    lines: those of the walks, followed by the same "File deleted" lines in
    some order. *)
Theorem sweep_order_irrelevant (w : Walker) (fw : FileWatcher) (keys : list string) :
  keys ≡ₚ
    rangeKeys (states (checkDirs w 0 (directories fw) (mkPass ∅ (fileStates fw) []))) →
  ∃ swept swept',
    sweep (observed w fw) keys
      (states (checkDirs w 0 (directories fw) (mkPass ∅ (fileStates fw) [])),
       printed (checkDirs w 0 (directories fw) (mkPass ∅ (fileStates fw) []))) =
      (fileStates (checkChanges w fw).1,
       printed (checkDirs w 0 (directories fw) (mkPass ∅ (fileStates fw) [])) ++ swept) ∧
    (checkChanges w fw).2 =
      printed (checkDirs w 0 (directories fw) (mkPass ∅ (fileStates fw) [])) ++ swept' ∧
    swept ≡ₚ swept'.
Proof.
  intros Hperm. unfold observed. rewrite checkChanges_unfold, checkDirs_foldl in *.
  cbn zeta. set (s := foldl stepVisit _ _) in *. cbn [fst snd fileStates].
  destruct (sweep_Permutation (currentFiles s) keys (rangeKeys (states s))
              (states s) (printed s) Hperm) as [Hmap _].
  rewrite !sweep_closed_form in *. cbn [fst snd] in *.
  eexists _, _. split; [by rewrite Hmap|]. split; [reflexivity|].
  by rewrite Hperm.
Qed.

(** The root cannot be read and all three keys are swept, here in the
    reverse of the order of the model. *)
Lemma sweep_order_irrelevant_witness :
  ∃ swept swept',
    sweep (observed Scenario.rootUnreadable Scenario.knowsAB)
      (reverse (rangeKeys (states (checkDirs Scenario.rootUnreadable 0
                                     (directories Scenario.knowsAB)
                                     (mkPass ∅ (fileStates Scenario.knowsAB) [])))))
      (states (checkDirs Scenario.rootUnreadable 0 (directories Scenario.knowsAB)
                 (mkPass ∅ (fileStates Scenario.knowsAB) [])),
       printed (checkDirs Scenario.rootUnreadable 0 (directories Scenario.knowsAB)
                  (mkPass ∅ (fileStates Scenario.knowsAB) []))) =
      (fileStates (checkChanges Scenario.rootUnreadable Scenario.knowsAB).1,
       printed (checkDirs Scenario.rootUnreadable 0 (directories Scenario.knowsAB)
                  (mkPass ∅ (fileStates Scenario.knowsAB) [])) ++ swept) ∧
    (checkChanges Scenario.rootUnreadable Scenario.knowsAB).2 =
      printed (checkDirs Scenario.rootUnreadable 0 (directories Scenario.knowsAB)
                 (mkPass ∅ (fileStates Scenario.knowsAB) [])) ++ swept' ∧
    swept ≡ₚ swept'.
Proof.
  apply (sweep_order_irrelevant Scenario.rootUnreadable Scenario.knowsAB).
  apply reverse_Permutation.
Defined.

(** ** One path at a time *)

(** X8. What a pass does about a path depends on that path alone: two passes
    that start from the same record for the path (or from none), see the same
    descriptors for it in the same order and agree on whether it is observed
    print the same lines about it and leave the same record for it, whatever
    else the maps hold and the walks visit. *)
Theorem path_independence (w1 w2 : Walker) (fw1 fw2 : FileWatcher) (p : string) :
  fileStates fw1 !! p = fileStates fw2 !! p →
  seenFor p (passVisits w1 0 (directories fw1)) =
    seenFor p (passVisits w2 0 (directories fw2)) →
  (p ∈ observed w1 fw1 ↔ p ∈ observed w2 fw2) →
  eventsFor p (checkChanges w1 fw1).2 = eventsFor p (checkChanges w2 fw2).2 ∧
  fileStates (checkChanges w1 fw1).1 !! p = fileStates (checkChanges w2 fw2).1 !! p.
Proof.
  rewrite !observed_listed. intros Hrec Hseen Hobs.
  rewrite !checkChanges_eventsFor, !checkChanges_lookup, Hrec, Hseen.
  destruct (decide (p ∈ listed (passVisits w1 0 (directories fw1)))) as [H1|H1],
    (decide (p ∈ listed (passVisits w2 0 (directories fw2)))) as [H2|H2];
    try tauto.
  - split; [|done]. f_equal.
    by rewrite !decide_False by tauto.
  - split; [|done]. f_equal.
    destruct (fileStates fw2 !! p) as [old|].
    + by rewrite !decide_True by eauto.
    + by rewrite !decide_False by (by intros [[? ?] _]).
Qed.

(** [D/a.txt] is truncated; the second watcher also knows [D/b.txt], which
    its pass does not find. *)
Lemma path_independence_witness :
  eventsFor Scenario.pathA (checkChanges Scenario.findsA_truncated Scenario.knowsA).2 =
    eventsFor Scenario.pathA (checkChanges Scenario.findsA_truncated Scenario.knowsAB).2 ∧
  fileStates (checkChanges Scenario.findsA_truncated Scenario.knowsA).1
    !! Scenario.pathA =
  fileStates (checkChanges Scenario.findsA_truncated Scenario.knowsAB).1
    !! Scenario.pathA.
Proof.
  apply (path_independence Scenario.findsA_truncated Scenario.findsA_truncated
           Scenario.knowsA Scenario.knowsAB Scenario.pathA).
  - vm_compute. reflexivity.
  - vm_compute. reflexivity.
  - split; intros _; by_evaluation.
Defined.

(** ** Unreadable roots *)





(** X10. A path that one pass reports as deleted is new to the next: when
    the map holds a path that a pass does not observe, and the following pass
    stats it successfully, the first pass prints exactly "File deleted" about
    it and the second prints "File created" for it exactly once.  An
    unreadable root is thus followed by one "File created" line per entry. *)
Theorem deleted_then_created_again (w1 w2 : Walker) (fw : FileWatcher) (p : string)
    (st : FileInfo) :
  is_Some (fileStates fw !! p) →
  p ∉ observed w1 fw →
  (p, st) ∈ walkOutput (passVisits w2 0 (directories fw)) →
  eventsFor p (checkChanges w1 fw).2 = [Deleted p] ∧
  countEvent (Created p) (checkChanges w2 (checkChanges w1 fw).1).2 = 1%nat ∧
  is_Some (fileStates (checkChanges w2 (checkChanges w1 fw).1).1 !! p).
Proof.
  rewrite observed_listed. intros Hold Hout Hin.
  apply elem_of_walkOutput in Hin.
  assert (fileStates (checkChanges w1 fw).1 !! p = None) as Hgone.
  { by rewrite checkChanges_lookup, decide_False. }
  split; [|split].
  - rewrite checkChanges_eventsFor, seenFor_not_listed by done.
    by rewrite decide_True.
  - rewrite countEvent_eventsFor. cbn [event_path].
    rewrite checkChanges_eventsFor, Hgone, checkChanges_directories.
    rewrite decide_False by (by intros [[? ?] _]). rewrite app_nil_r.
    destruct (seenFor p _) as [|st0 rest]; [by apply elem_of_nil in Hin|].
    cbn [pathEvents]. rewrite countEvent_app.
    rewrite (countEvent_not_in (Created p) (pathEvents p (Some st0) rest))
      by apply Created_not_in_pathEvents_Some.
    by rewrite countEvent_cons_eq.
  - rewrite checkChanges_lookup, Hgone, checkChanges_directories.
    rewrite decide_True by (by apply (seenFor_listed p st)).
    destruct (last (seenFor p _)) eqn:E; [by eauto|].
    apply last_None in E. rewrite E in Hin. by apply elem_of_nil in Hin.
Qed.

(** [D] cannot be read during one pass and is found with [a.txt] by the
    next. *)
Lemma deleted_then_created_again_witness :
  eventsFor Scenario.pathA (checkChanges Scenario.rootUnreadable Scenario.knowsA).2
    = [Deleted Scenario.pathA] ∧
  countEvent (Created Scenario.pathA)
    (checkChanges Scenario.findsA
       (checkChanges Scenario.rootUnreadable Scenario.knowsA).1).2 = 1%nat ∧
  is_Some (fileStates
             (checkChanges Scenario.findsA
                (checkChanges Scenario.rootUnreadable Scenario.knowsA).1).1
           !! Scenario.pathA).
Proof.
  apply (deleted_then_created_again Scenario.rootUnreadable Scenario.findsA
           Scenario.knowsA Scenario.pathA Scenario.fileA).
  - exists Scenario.fileA. vm_compute. reflexivity.
  - by_evaluation.
  - by_evaluation.
Defined.

(** ** Passes over an unchanged tree *)

(** X11. A pass reaches a fixed point at once: when the descriptors seen for
    one path during a pass agree on size, modification time and mode, running
    the pass again over the same walk prints nothing and returns the watcher
    unchanged, whatever the map held before the first pass. *)
Theorem pass_reaches_fixed_point (w : Walker) (fw : FileWatcher) :
  (∀ p st1 st2, st1 ∈ seenFor p (passVisits w 0 (directories fw)) →
                st2 ∈ seenFor p (passVisits w 0 (directories fw)) →
                sameMeta st1 st2) →
  checkChanges w (checkChanges w fw).1 = ((checkChanges w fw).1, []).
Proof.
  intros Hcons.
  pose proof (second_pass_prints_nothing w fw Hcons) as Hev.
  assert (fileStates (checkChanges w (checkChanges w fw).1).1 =
          fileStates (checkChanges w fw).1) as Hmap.
  { apply map_eq. intros p.
    rewrite (checkChanges_lookup w (checkChanges w fw).1), checkChanges_directories.
    rewrite checkChanges_lookup.
    destruct (decide (p ∈ listed _)); [|done]. by destruct (last _). }
  pose proof (checkChanges_directories w (checkChanges w fw).1) as Hd.
  pose proof (checkChanges_interval w (checkChanges w fw).1) as Hi.
  destruct (checkChanges w (checkChanges w fw).1) as [[d m i] evs].
  destruct (checkChanges w fw).1 as [d' m' i']. simpl in *. by subst.
Qed.

(** [D/a.txt] truncated: the pass that reports it, run again, is silent. *)
Lemma pass_reaches_fixed_point_witness :
  (checkChanges Scenario.findsA_truncated Scenario.knowsA).2 =
    [SizeChanged Scenario.pathA] ∧
  checkChanges Scenario.findsA_truncated
    (checkChanges Scenario.findsA_truncated Scenario.knowsA).1 =
    ((checkChanges Scenario.findsA_truncated Scenario.knowsA).1, []).
Proof.
  split; [vm_compute; reflexivity|].
  apply (pass_reaches_fixed_point Scenario.findsA_truncated Scenario.knowsA).
  intros p st1 st2 H1 H2.
  apply elem_of_seenFor in H1 as (v1 & Hv1 & Hp1 & Hs1).
  apply elem_of_seenFor in H2 as (v2 & Hv2 & Hp2 & Hs2).
  vm_compute in Hv1, Hv2.
  elem_of_cases Hv1; elem_of_cases Hv2; subst v1 v2;
    vm_compute in Hs1, Hs2; injection Hs1 as <-; injection Hs2 as <-;
    first [done | subst p; vm_compute in Hp2; discriminate].
Defined.

(** ** The same root more than once *)






(** ** How much a pass prints *)

Lemma length_modifications (p : string) (a b : FileInfo) :
  (length (modifications p a b) ≤ 3)%nat.
Proof.
  unfold modifications.
  destruct (decide (Size a ≠ Size b)), (decide (ModTime a ≠ ModTime b)),
    (decide (Mode a ≠ Mode b)); simpl; lia.
Qed.

Lemma walkOutput_cons (v : Visit) (vs : list Visit) :
  walkOutput (v :: vs) =
    match statOf v with
    | Some st => (v_path v, st) :: walkOutput vs
    | None => walkOutput vs
    end.
Proof. unfold walkOutput. simpl. by destruct (statOf v). Qed.

Lemma length_printed_foldl (vs : list Visit) (s : Pass) :
  (length (printed (foldl stepVisit s vs)) ≤
     length (printed s) + 3 * length (walkOutput vs))%nat.
Proof.
  revert s. induction vs as [|v vs IH]; intros s; [simpl; lia|].
  cbn [foldl]. etrans; [apply IH|]. rewrite walkOutput_cons.
  destruct (visit_cases v) as [(e & He & Hst)|[(e & He & Hs & Hst)|(st & He & _ & Hst)]].
  - rewrite (stepVisit_walk_error _ _ _ He), Hst. lia.
  - rewrite (stepVisit_stat_error _ _ _ He Hs), Hst. simpl. lia.
  - rewrite (stepVisit_ok _ _ _ Hst), Hst. cbn [printed length pathEvents].
    rewrite length_app, app_nil_r.
    destruct (states s !! v_path v) as [old|].
    + pose proof (length_modifications (v_path v) old st). lia.
    + simpl. lia.
Qed.

(** X13. A pass prints at most three lines for each successfully stat'ed
    visit and one line for each key the map held before. *)
Theorem pass_lines_bounded (w : Walker) (fw : FileWatcher) :
  (length (checkChanges w fw).2 ≤
     3 * length (walkOutput (passVisits w 0 (directories fw))) +
     size (fileStates fw))%nat.
Proof.
  rewrite checkChanges_unfold. cbn zeta. rewrite sweep_closed_form. cbn [snd].
  rewrite length_app, length_fmap.
  pose proof (length_printed_foldl (passVisits w 0 (directories fw))
                (mkPass ∅ (fileStates fw) [])) as Hwalk.
  cbn [printed length] in Hwalk.
  assert (length (filter (λ k, k ∉ currentFiles (foldl stepVisit
                     (mkPass ∅ (fileStates fw) []) (passVisits w 0 (directories fw))))
            (rangeKeys (states (foldl stepVisit (mkPass ∅ (fileStates fw) [])
                                  (passVisits w 0 (directories fw))))))
          ≤ size (fileStates fw))%nat as Hsweep; [|lia].
  rewrite <- size_dom.
  change (size (dom (fileStates fw))) with (length (elements (dom (fileStates fw)))).
  apply submseteq_length, NoDup_submseteq.
  - apply NoDup_filter. unfold rangeKeys. apply NoDup_elements.
  - intros k [Hout Hin]%list_elem_of_filter. unfold rangeKeys in Hin.
    rewrite elem_of_elements, elem_of_dom in *.
    rewrite currentFiles_foldl in Hout. cbn [currentFiles] in Hout.
    rewrite states_foldl, seenFor_not_listed in Hin by set_solver.
    done.
Qed.

(** ** Initialization that fails, and overlapping roots *)

Lemma firstError_split (pre post : list Visit) (v : Visit) (e : error) :
  (∀ u, u ∈ pre → is_Some (statOf u)) →
  visitError v = Some e →
  firstError (pre ++ v :: post) = Some e ∧ okPrefix (pre ++ v :: post) = pre.
Proof.
  intros Hpre Hv. apply firstError_None in Hpre.
  rewrite firstError_app, okPrefix_app, Hpre, (okPrefix_all _ Hpre).
  simpl. rewrite Hv. by rewrite app_nil_r.
Qed.

(** X14. [initialize] stops at the first visit that fails and does not undo
    what it has done: it returns the error of that visit, prints nothing, and
    leaves in the map exactly the entries visited before the failure; the
    entries that the walk would have visited afterwards, and the directories
    not yet walked, are not recorded. *)
Theorem initialize_stops_at_first_error (w : Walker) (fw : FileWatcher)
    (pre post : list Visit) (v : Visit) (e : error) :
  passVisits w 0 (directories fw) = pre ++ v :: post →
  (∀ u, u ∈ pre → is_Some (statOf u)) →
  visitError v = Some e →
  initialize w fw =
    (mkFileWatcher (directories fw) (insertAll (fileStates fw) pre) (interval fw),
     [], Some e) ∧
  dom (insertAll (fileStates fw) pre) =
    dom (fileStates fw) ∪ list_to_set (v_path <$> pre) ∧
  (∀ p, insertAll (fileStates fw) pre !! p =
          from_option Some (fileStates fw !! p) (last (seenFor p pre))).
Proof.
  intros Hvs Hpre Hv.
  destruct (firstError_split pre post v e Hpre Hv) as [Hfirst Hprefix].
  split; [|split].
  - by rewrite initialize_spec, Hvs, Hfirst, Hprefix.
  - by rewrite insertAll_dom, okPaths_all.
  - intros p. apply insertAll_lookup.
Qed.

(** [D/a.txt] cannot be stat'ed: [D] is recorded, [D/b.txt] is not. *)
Lemma initialize_stops_at_first_error_witness :
  initialize Scenario.cannotStatA_thenB (NewFileWatcher [Scenario.pathD]) =
    (mkFileWatcher [Scenario.pathD]
       (insertAll ∅ [Scenario.ok Scenario.pathD Scenario.dirD]) 1000000000,
     [], Some "stat: no such file or directory"%string) ∧
  insertAll ∅ [Scenario.ok Scenario.pathD Scenario.dirD] !! Scenario.pathB = None.
Proof.
  destruct (initialize_stops_at_first_error Scenario.cannotStatA_thenB
              (NewFileWatcher [Scenario.pathD])
              [Scenario.ok Scenario.pathD Scenario.dirD]
              [Scenario.ok Scenario.pathB Scenario.fileB]
              (Scenario.statFails Scenario.pathA)
              "stat: no such file or directory"%string) as (Hinit & _ & Hlook).
  - reflexivity.
  - intros u Hu. elem_of_cases Hu; subst u. vm_compute. eauto.
  - reflexivity.
  - split; [exact Hinit|]. rewrite Hlook. vm_compute. reflexivity.
Defined.

(** X15. With overlapping roots [initialize] keeps one entry per path: when
    every visit of the initial walk can be stat'ed, [initialize] returns nil,
    the keys of the map are the visited paths, each holding the descriptor of
    its last visit, and the map has at most as many entries as there were
    visits. *)
Theorem initialize_last_visit_wins (w : Walker) (dirs : list string) :
  (∀ v, v ∈ passVisits w 0 dirs → is_Some (statOf v)) →
  (initialize w (NewFileWatcher dirs)).2 = None ∧
  dom (fileStates (initialize w (NewFileWatcher dirs)).1.1) =
    list_to_set (v_path <$> passVisits w 0 dirs) ∧
  (∀ p, fileStates (initialize w (NewFileWatcher dirs)).1.1 !! p =
          last (seenFor p (passVisits w 0 dirs))) ∧
  (size (fileStates (initialize w (NewFileWatcher dirs)).1.1) ≤
     length (passVisits w 0 dirs))%nat.
Proof.
  intros Hall. pose proof Hall as Hfirst. apply firstError_None in Hfirst.
  rewrite initialize_spec. cbn [fst snd directories fileStates interval NewFileWatcher].
  rewrite Hfirst, (okPrefix_all _ Hfirst).
  assert (dom (insertAll ∅ (passVisits w 0 dirs)) =
          list_to_set (v_path <$> passVisits w 0 dirs)) as Hdom.
  { by rewrite insertAll_dom, dom_empty_L, (left_id_L ∅ (∪)), okPaths_all. }
  split; [done|]. split; [done|]. split.
  - intros p. rewrite insertAll_lookup, lookup_empty. by destruct (last _).
  - rewrite <- size_dom, <- (length_fmap v_path).
    change (size (dom (insertAll ∅ (passVisits w 0 dirs))))
      with (length (elements (dom (insertAll ∅ (passVisits w 0 dirs))))).
    apply submseteq_length, NoDup_submseteq; [apply NoDup_elements|].
    intros k Hk. apply elem_of_elements in Hk. rewrite Hdom in Hk.
    by apply elem_of_list_to_set in Hk.
Qed.

(** [D] given twice: four visits, two entries. *)
Lemma initialize_last_visit_wins_witness :
  (initialize Scenario.findsA_twice (NewFileWatcher [Scenario.pathD; Scenario.pathD])).2
    = None ∧
  length (passVisits Scenario.findsA_twice 0 [Scenario.pathD; Scenario.pathD]) = 4%nat ∧
  size (fileStates (initialize Scenario.findsA_twice
                      (NewFileWatcher [Scenario.pathD; Scenario.pathD])).1.1) = 2%nat.
Proof.
  destruct (initialize_last_visit_wins Scenario.findsA_twice
              [Scenario.pathD; Scenario.pathD]) as (Hnil & _ & _ & _).
  - intros v Hv. vm_compute in Hv. elem_of_cases Hv; subst v; vm_compute; eauto.
  - split; [exact Hnil|]. split; vm_compute; reflexivity.
Defined.

(** ** The ticker loop *)



Lemma tickLoop_configuration (ticks : list Walker) (fw : FileWatcher)
    (out : list Event) :
  directories (tickLoop ticks fw out).1 = directories fw ∧
  interval (tickLoop ticks fw out).1 = interval fw.
Proof.
  revert fw out. induction ticks as [|w ticks IH]; intros fw out; [done|].
  cbn [tickLoop].
  pose proof (checkChanges_directories w fw) as Hd.
  pose proof (checkChanges_interval w fw) as Hi.
  destruct (checkChanges w fw) as [fw' evs]. simpl in Hd, Hi.
  destruct (IH fw' (out ++ evs)) as [-> ->]. done.
Qed.

Lemma main_Running_inv (args : list string) (init : Walker) (ticks : list Walker)
    (fw : FileWatcher) (out : list string) :
  main args init ticks = Running fw out →
  (2 ≤ length args)%nat ∧
  firstError (passVisits init 0 (tail args)) = None ∧
  fw = (tickLoop ticks (initialize init (NewFileWatcher (tail args))).1.1 []).1 ∧
  out = startLine (tail args) ::
        map message
          (tickLoop ticks (initialize init (NewFileWatcher (tail args))).1.1 []).2.
Proof.
  unfold main. destruct (length args <? 2)%nat eqn:Hlen; [done|].
  apply Nat.ltb_ge in Hlen. rewrite Start_spec. cbn [directories NewFileWatcher].
  destruct (firstError _); [done|]. by intros [= <- <-].
Qed.



(** X17. No pass changes what is watched: while the process runs, the
    directories of the watcher are the command-line arguments after the
    program name, in order, and its interval is one second, however many
    ticks have been served. *)
Theorem configuration_never_changes (args : list string) (init : Walker)
    (ticks : list Walker) (fw : FileWatcher) (out : list string) :
  main args init ticks = Running fw out →
  directories fw = tail args ∧ interval fw = 1000000000.
Proof.
  intros Hrun. destruct (main_Running_inv _ _ _ _ _ Hrun) as (_ & _ & -> & _).
  destruct (tickLoop_configuration ticks
              (initialize init (NewFileWatcher (tail args))).1.1 []) as [-> ->].
  by rewrite initialize_spec.
Qed.

Lemma configuration_never_changes_witness :
  directories
    (tickLoop [Scenario.findsA; Scenario.findsD]
       (initialize Scenario.findsA (NewFileWatcher [Scenario.pathD])).1.1 []).1
    = [Scenario.pathD] ∧
  interval
    (tickLoop [Scenario.findsA; Scenario.findsD]
       (initialize Scenario.findsA (NewFileWatcher [Scenario.pathD])).1.1 []).1
    = 1000000000.
Proof.
  apply (configuration_never_changes ["filewatcher"%string; Scenario.pathD]
           Scenario.findsA [Scenario.findsA; Scenario.findsD] _
           [startLine [Scenario.pathD]; message (Deleted Scenario.pathA)]).
  vm_compute. reflexivity.
Defined.

(** ** The printed text *)

(** X18. The lines identify the events: two sequences of events whose
    [fmt.Printf] calls write the same texts, call by call, are the same
    sequence. *)
Theorem printed_lines_determine_events (l1 l2 : list Event) :
  map message l1 = map message l2 → l1 = l2.
Proof.
  revert l2. induction l1 as [|e1 l1 IH]; intros [|e2 l2]; simpl; try done.
  intros [= He Hl]. f_equal; [by apply message_inj|by apply IH].
Qed.

Lemma printed_lines_determine_events_witness :
  (checkChanges Scenario.findsA_rewritten Scenario.knowsA).2 =
    [SizeChanged Scenario.pathA; TimeChanged Scenario.pathA;
     AttributesChanged Scenario.pathA].
Proof.
  apply (printed_lines_determine_events
           (checkChanges Scenario.findsA_rewritten Scenario.knowsA).2
           [SizeChanged Scenario.pathA; TimeChanged Scenario.pathA;
            AttributesChanged Scenario.pathA]).
  vm_compute. reflexivity.
Defined.

Lemma string_app_assoc (s1 s2 s3 : string) :
  (s1 +:+ s2) +:+ s3 = s1 +:+ (s2 +:+ s3).
Proof.
  induction s1 as [|a s1 IH]; [done|].
  change (String a ((s1 +:+ s2) +:+ s3) = String a (s1 +:+ (s2 +:+ s3))).
  by f_equal.
Qed.

(** X19. The text on standard output does not identify the events when a
    path contains a line break: the creation of an entry whose name is [p], a
    line break and the text of a "File deleted" line for [q] writes exactly
    what the creation of [p] followed by the deletion of [q] writes. *)
Theorem stdout_text_ambiguous (p q : string) :
  stdoutText [Created (p +:+ newline +:+ "File deleted: " +:+ q)] =
    stdoutText [Created p; Deleted q] ∧
  [Created (p +:+ newline +:+ "File deleted: " +:+ q)] ≠ [Created p; Deleted q].
Proof.
  split; [|done]. unfold stdoutText. cbn [foldr message].
  by rewrite !string_app_assoc.
Qed.
